(** * P9ML prime factorization: a shallow embedding of
    [p9ml_prime_factorization.c] and of the batch and precompute entry points
    of [lua_p9ml_prime.c], with the properties of its specification.

    Conventions.
    - A [uint32_t] is a [Z] in [0, 2^32); every addition and multiplication of
      the source is followed by its wrap-around [u32].
    - [/] and [%] by a divisor that is not a literal go through [udiv] and
      [umod], which trap on a zero divisor as the hardware does.
    - A [while] loop is a [Fixpoint] on a fuel counter; running out of fuel is
      the outcome [OutOfFuel], kept apart from every outcome of the C code.
    - The out-parameter [factors] of the factorizers is the list of the values
      written to [factors[0 .. factor_count)], in order; the returned count is
      its length.
    - The static array [factor_cache] is a list of [MAX_CACHE_SIZE] entries,
      updated in place, next to the counter [cache_size]. *)

From Stdlib Require Import ZArith Lia List Bool.
From stdpp Require Import base tactics option list numbers.

Local Open Scope Z_scope.

(** ** Outcomes of a computation *)

Inductive result (A : Type) : Type :=
  | Ok (a : A)
  | DivByZero
  | OutOfFuel.

Arguments Ok {A} a.
Arguments DivByZero {A}.
Arguments OutOfFuel {A}.

#[global] Instance result_ret : MRet result := @Ok.

#[global] Instance result_bind : MBind result := fun A B f r =>
  match r with
  | Ok a => f a
  | DivByZero => DivByZero
  | OutOfFuel => OutOfFuel
  end.

#[global] Instance result_fmap : FMap result := fun A B f r =>
  match r with
  | Ok a => Ok (f a)
  | DivByZero => DivByZero
  | OutOfFuel => OutOfFuel
  end.

(** ** Machine arithmetic *)

Definition U32_MOD : Z := 2 ^ 32.
Definition UINT32_MAX : Z := 2 ^ 32 - 1.

Definition u32 (z : Z) : Z := z mod U32_MOD.

Definition is_u32 (z : Z) : Prop := 0 <= z < U32_MOD.

Definition udiv (a b : Z) : result Z :=
  if b =? 0 then DivByZero else Ok (a / b).

Definition umod (a b : Z) : result Z :=
  if b =? 0 then DivByZero else Ok (a mod b).

(** ** Constants of the source *)

Definition MAX_FACTORS : Z := 64.
Definition MAX_CACHE_SIZE : Z := 1000.

Definition small_primes : list Z :=
  [2; 3; 5; 7; 11; 13; 17; 19; 23; 29; 31; 37; 41; 43; 47; 53; 59; 61; 67; 71].

Definition num_small_primes : Z := Z.of_nat (length small_primes).

(** ** [isqrt] *)

(** Fuel of the Newton loop of [isqrt]. *)
Definition ISQRT_FUEL : nat := 64.

(** The loop [while (y < x) { x = y; y = (x + n / x) / 2; }]. *)
Fixpoint isqrt_loop (fuel : nat) (n x y : Z) : result Z :=
  if y <? x then
    match fuel with
    | O => OutOfFuel
    | S fuel' =>
        let x := y in
        q ← udiv n x;
        isqrt_loop fuel' n x (u32 (x + q) / 2)
    end
  else Ok x.

Definition isqrt (n : Z) : result Z :=
  if n <? 2 then Ok n
  else
    let x := n in
    let y := u32 (x + 1) / 2 in
    isqrt_loop ISQRT_FUEL n x y.

(** ** The factorization cache *)

Record FactorCache : Type := mkFactorCache {
  number : Z;
  factor_count : Z;
  factors : list Z
}.

Record state : Type := mkState {
  factor_cache : list FactorCache;
  cache_size : Z
}.

(** A zeroed entry, as static storage and [memset] leave it. *)
Definition zero_entry : FactorCache :=
  mkFactorCache 0 0 (replicate (Z.to_nat MAX_FACTORS) 0).

(** The cache at process start. *)
Definition init_state : state :=
  mkState (replicate (Z.to_nat MAX_CACHE_SIZE) zero_entry) 0.

(** [memcpy(dst, src, cnt * sizeof(uint32_t))] on arrays of [uint32_t]. *)
Definition memcpy (dst src : list Z) (cnt : Z) : list Z :=
  take (Z.to_nat cnt) src ++ drop (Z.to_nat cnt) dst.

(** The scan of [check_cache] over the entries [factor_cache[0 .. cache_size)]:
    the first entry whose number is [n] gives the first [factor_count] values
    of its factor array. *)
Fixpoint check_cache_scan (entries : list FactorCache) (n : Z) : option (list Z) :=
  match entries with
  | [] => None
  | e :: entries' =>
      if number e =? n then Some (take (Z.to_nat (factor_count e)) (factors e))
      else check_cache_scan entries' n
  end.

Definition check_cache (n : Z) (st : state) : option (list Z) :=
  check_cache_scan (take (Z.to_nat (cache_size st)) (factor_cache st)) n.

(** [add_to_cache]; the count is stored in a [uint8_t] field. *)
Definition add_to_cache (n : Z) (fs : list Z) (st : state) : state :=
  let count := Z.of_nat (length fs) in
  if (cache_size st >=? MAX_CACHE_SIZE) || (count >=? MAX_FACTORS) then st
  else
    mkState
      (alter (fun e => mkFactorCache n (count mod 256) (memcpy (factors e) fs count))
             (Z.to_nat (cache_size st)) (factor_cache st))
      (cache_size st + 1).

Definition clear_factorization_cache (st : state) : state :=
  mkState (replicate (Z.to_nat MAX_CACHE_SIZE) zero_entry) 0.

Definition get_cache_stats (st : state) : Z * Z :=
  (cache_size st, MAX_CACHE_SIZE).

(** ** [prime_factorize_optimized] *)

(** Fuel of a loop that divides one divisor out, and of a loop over the
    candidates. *)
Definition DIVIDE_FUEL : nat := 32.
Definition CANDIDATE_FUEL : nat := Z.to_nat 65536.

(** [while (n % p == 0) { factors[factor_count++] = p; n /= p; }] *)
Fixpoint divide_out (fuel : nat) (p n : Z) (fs : list Z) : result (Z * list Z) :=
  r ← umod n p;
  if r =? 0 then
    match fuel with
    | O => OutOfFuel
    | S fuel' => q ← udiv n p; divide_out fuel' p q (fs ++ [p])
    end
  else Ok (n, fs).

(** The [for] loop over [small_primes], with its two [break]s. *)
Fixpoint small_prime_loop (ps : list Z) (n : Z) (fs : list Z) : result (Z * list Z) :=
  match ps with
  | [] => Ok (n, fs)
  | p :: ps' =>
      '(n, fs) ← divide_out DIVIDE_FUEL p n fs;
      if n =? 1 then Ok (n, fs)
      else if u32 (p * p) >? n then
        Ok (n, if n >? 1 then fs ++ [n] else fs)
      else small_prime_loop ps' n fs
  end.

(** [while (n % candidate == 0) { factors[factor_count++] = candidate;
    n /= candidate; sqrt_n = isqrt(n); }] *)
Fixpoint divide_out_sqrt (fuel : nat) (candidate n : Z) (fs : list Z) (sqrt_n : Z)
  : result (Z * list Z * Z) :=
  r ← umod n candidate;
  if r =? 0 then
    match fuel with
    | O => OutOfFuel
    | S fuel' =>
        q ← udiv n candidate;
        s ← isqrt q;
        divide_out_sqrt fuel' candidate q (fs ++ [candidate]) s
    end
  else Ok (n, fs, sqrt_n).

(** [while (candidate <= sqrt_n) { ...; candidate += 2; }] *)
Fixpoint odd_candidate_loop (fuel : nat) (candidate n : Z) (fs : list Z) (sqrt_n : Z)
  : result (Z * list Z) :=
  if candidate <=? sqrt_n then
    match fuel with
    | O => OutOfFuel
    | S fuel' =>
        '(n, fs, sqrt_n) ← divide_out_sqrt DIVIDE_FUEL candidate n fs sqrt_n;
        odd_candidate_loop fuel' (u32 (candidate + 2)) n fs sqrt_n
    end
  else Ok (n, fs).

(** The body of [prime_factorize_optimized] between the cache lookup and the
    cache insertion: what a cache miss computes. *)
Definition factorize_uncached (n : Z) : result (list Z) :=
  '(n, fs) ← small_prime_loop small_primes n [];
  if n >? 1 then
    let max_small := nth (Z.to_nat (num_small_primes - 1)) small_primes 0 in
    '(n, fs) ←
      (if u32 (max_small * max_small) <=? n then
         let candidate := u32 (max_small + 2) in
         let candidate :=
           if candidate mod 2 =? 0 then u32 (candidate + 1) else candidate in
         sqrt_n ← isqrt n;
         odd_candidate_loop CANDIDATE_FUEL candidate n fs sqrt_n
       else Ok (n, fs));
    Ok (if n >? 1 then fs ++ [n] else fs)
  else Ok fs.

Definition prime_factorize_optimized (n : Z) (st : state) : result (list Z * state) :=
  if n <=? 1 then Ok ([], st)
  else
    match check_cache n st with
    | Some fs => Ok (fs, st)
    | None =>
        let original_n := n in
        fs ← factorize_uncached n;
        Ok (fs, add_to_cache original_n fs st)
    end.

(** ** [wheel_factorize] *)

Definition wheel : list Z := [4; 6; 10; 12; 16; 18; 22; 24].
Definition wheel_size : Z := 8.

(** [while (candidate <= sqrt_n) { ...; candidate += wheel[wheel_pos];
    wheel_pos = (wheel_pos + 1) % wheel_size; }] *)
Fixpoint wheel_loop (fuel : nat) (candidate wheel_pos n : Z) (fs : list Z) (sqrt_n : Z)
  : result (Z * list Z) :=
  if candidate <=? sqrt_n then
    match fuel with
    | O => OutOfFuel
    | S fuel' =>
        '(n, fs, sqrt_n) ← divide_out_sqrt DIVIDE_FUEL candidate n fs sqrt_n;
        let candidate := u32 (candidate + nth (Z.to_nat wheel_pos) wheel 0) in
        let wheel_pos := (wheel_pos + 1) mod wheel_size in
        wheel_loop fuel' candidate wheel_pos n fs sqrt_n
    end
  else Ok (n, fs).

Definition wheel_factorize (n : Z) : result (list Z) :=
  if n <=? 1 then Ok []
  else
    '(n, fs) ← divide_out DIVIDE_FUEL 2 n [];
    '(n, fs) ← divide_out DIVIDE_FUEL 3 n fs;
    '(n, fs) ← divide_out DIVIDE_FUEL 5 n fs;
    if n <=? 1 then Ok fs
    else
      sqrt_n ← isqrt n;
      '(n, fs) ← wheel_loop CANDIDATE_FUEL 7 0 n fs sqrt_n;
      Ok (if n >? 1 then fs ++ [n] else fs).

(** ** Batch and precompute drivers *)

(** The loop of [batch_prime_factorize_avx2]: [all_counts[i]] and
    [all_factors[i]] receive the factorization of [numbers[i]]. *)
Fixpoint batch_prime_factorize_avx2 (numbers : list Z) (st : state)
  : result (list (list Z) * state) :=
  match numbers with
  | [] => Ok ([], st)
  | x :: numbers' =>
      '(fs, st) ← prime_factorize_optimized x st;
      '(rest, st) ← batch_prime_factorize_avx2 numbers' st;
      Ok (fs :: rest, st)
  end.

(** The processing loop of [lua_batch_prime_factorize], over the numbers
    already read from the host table; [out] is the result table built so far,
    the subtable of [numbers[i]] being stored at index [i + 1]. *)
Fixpoint lua_batch_loop (numbers : list Z) (out : list (list Z)) (st : state)
  : result (list (list Z) * state) :=
  match numbers with
  | [] => Ok (out, st)
  | x :: numbers' =>
      '(fs, st) ← prime_factorize_optimized x st;
      lua_batch_loop numbers' (out ++ [fs]) st
  end.

Definition lua_batch_prime_factorize (numbers : list Z) (st : state)
  : result (list (list Z) * state) :=
  lua_batch_loop numbers [] st.

Definition common_dims : list Z :=
  [1; 2; 3; 4; 8; 16; 32; 64; 128; 256; 512; 1024; 2048; 4096;
   224; 299; 331; 448; 640; 768; 896; 1280; 1920;
   7; 14; 28; 56; 112].

(** [for (i = 0; i < num_common && cache_size < MAX_CACHE_SIZE; i++)] *)
Fixpoint precompute_loop (dims : list Z) (st : state) : result state :=
  match dims with
  | [] => Ok st
  | d :: dims' =>
      if cache_size st <? MAX_CACHE_SIZE then
        '(_, st) ← prime_factorize_optimized d st;
        precompute_loop dims' st
      else Ok st
  end.

Definition precompute_common_dimensions (st : state) : result state :=
  precompute_loop common_dims st.

(** [lua_precompute_common_dimensions] pushes [cache_size] as its result. *)
Definition lua_precompute_common_dimensions (st : state) : result (Z * state) :=
  st ← precompute_common_dimensions st;
  Ok (cache_size st, st).

(** ** The exposed operations and the cache states they reach *)

Inductive operation : Type :=
  | OpFactorize (n : Z)
  | OpBatchFactorize (xs : list Z)
  | OpPrecomputeCommon
  | OpGetCacheStats
  | OpClearCache.

(** Arguments are unsigned 32-bit integers. *)
Definition valid_operation (o : operation) : Prop :=
  match o with
  | OpFactorize n => is_u32 n
  | OpBatchFactorize xs => Forall is_u32 xs
  | _ => True
  end.

Definition run_operation (o : operation) (st : state) : result state :=
  match o with
  | OpFactorize n => snd <$> prime_factorize_optimized n st
  | OpBatchFactorize xs => snd <$> lua_batch_prime_factorize xs st
  | OpPrecomputeCommon => snd <$> lua_precompute_common_dimensions st
  | OpGetCacheStats => Ok st
  | OpClearCache => Ok (clear_factorization_cache st)
  end.

Inductive reachable : state -> Prop :=
  | reachable_init : reachable init_state
  | reachable_step (st st' : state) (o : operation) :
      reachable st ->
      valid_operation o ->
      run_operation o st = Ok st' ->
      reachable st'.

(** ** Notions used by the statements *)

Definition product (fs : list Z) : Z := fold_right Z.mul 1 fs.

(** Each element is less than or equal to the next. *)
Definition non_decreasing (fs : list Z) : Prop :=
  forall (i : nat) (a b : Z), fs !! i = Some a -> fs !! S i = Some b -> a <= b.

(** The number of occurrences of [x], for comparing sequences as multisets. *)
Definition occurrences (x : Z) (fs : list Z) : nat :=
  length (filter (fun y => y = x) fs).

Definition same_multiset (fs gs : list Z) : Prop :=
  forall x : Z, occurrences x fs = occurrences x gs.

(** The sequence a computation returns, without the final cache. *)
Definition returned {A} (r : result (A * state)) : result A := fst <$> r.

(** The number of distinct values of a table. *)
Definition distinct_count (l : list Z) : nat := length (remove_dups l).

(** The cache after [factorize(12)] from process start. *)
Definition state_after_12 : state := add_to_cache 12 [2; 2; 3; 3] init_state.

(** The cache after [batch_factorize] of 2, 3, ..., 1001 from process start. *)
Definition full_state : state :=
  match lua_batch_prime_factorize (seqZ 2 1000) init_state with
  | Ok (_, st) => st
  | _ => init_state
  end.

(** ** Invariants and auxiliary notions *)

(** [n] has no divisor [d] with [2 <= d < c]. *)
Definition no_divisor_below (c n : Z) : Prop :=
  forall d : Z, 2 <= d < c -> n mod d <> 0.

(** The loop invariant of trial division: [N] is the number being factored,
    [n] the remaining cofactor and [fs] the factors written so far, all of
    them below [c]. *)
Record loop_inv (N c n : Z) (fs : list Z) : Prop := mk_loop_inv {
  inv_cofactor : 1 <= n;
  inv_product : product fs * n = N;
  inv_sorted : non_decreasing fs;
  inv_factors : Forall (fun f => 2 <= f < c) fs
}.

(** [d] has a divisor [e] with [2 <= e < c]. *)
Definition has_divisor_below (c d : Z) : bool :=
  existsb (fun e => d mod e =? 0) (seqZ 2 (c - 2)).

(** Every number from [c] up to [p], [p] excluded, has a divisor below [c]. *)
Definition gap_covered (c p : Z) : bool :=
  forallb (has_divisor_below c) (seqZ c (p - c)).

(** The table lists, in ascending order and without a miss, the primes from
    [c] on: between two of its entries every number has a smaller divisor. *)
Fixpoint primes_chain (c : Z) (ps : list Z) : bool :=
  match ps with
  | [] => true
  | p :: ps' => (c <=? p) && gap_covered c p && primes_chain (p + 1) ps'
  end.

(** The bound reached once the whole of [ps] has been tried. *)
Definition chain_end (c : Z) (ps : list Z) : Z :=
  fold_left (fun _ p => p + 1) ps c.

(** How the pass over the small primes ends: either the invariant holds up to
    the end of the table, or the pass stopped early at [p * p > n] and the
    cofactor has been written as the last factor, without being reset. *)
Definition small_pass_post (N cend n : Z) (fs : list Z) : Prop :=
  (loop_inv N cend n fs /\ no_divisor_below cend n)
  \/ (exists fs0, fs = fs0 ++ [n] /\ loop_inv N n n fs0 /\ 1 < n < 5041).

(** The sequence computed for [N]: non-decreasing, made of numbers from 2 on,
    and either of product [N] or such a sequence with its last element [m]
    written twice. *)
Definition uncached_post (N : Z) (fs : list Z) : Prop :=
  non_decreasing fs
  /\ Forall (fun f => 2 <= f) fs
  /\ (product fs = N
      \/ exists fs0 m,
           fs = fs0 ++ [m; m] /\ product (fs0 ++ [m]) = N /\ 1 < m < 5041).

(** An entry holds a number from 2 on and, in the first [factor_count] slots
    of its factor array, what a cache miss computes for it. *)
Definition entry_ok (e : FactorCache) : Prop :=
  2 <= number e < U32_MOD
  /\ factorize_uncached (number e)
     = Ok (take (Z.to_nat (factor_count e)) (factors e)).

(** The invariant of the cache: the counter is within the capacity, the array
    has its declared length, and every entry in use satisfies [entry_ok]. *)
Record cache_inv (st : state) : Prop := mk_cache_inv {
  ci_size : 0 <= cache_size st <= MAX_CACHE_SIZE;
  ci_length : length (factor_cache st) = Z.to_nat MAX_CACHE_SIZE;
  ci_entries :
    forall (i : nat) (e : FactorCache),
      Z.of_nat i < cache_size st -> factor_cache st !! i = Some e -> entry_ok e
}.

(** [outs] holds, index by index, what the factorizer returns for the
    elements of [xs] when it is applied to them one after the other, first to
    last, from the cache state [st]; [st'] is the cache state it leaves. *)
Inductive factorized_in_order : state -> list Z -> list (list Z) -> state -> Prop :=
  | factorized_nil (st : state) : factorized_in_order st [] [] st
  | factorized_cons (st st1 st' : state) (x : Z) (xs : list Z)
      (fs : list Z) (outs : list (list Z)) :
      prime_factorize_optimized x st = Ok (fs, st1) ->
      factorized_in_order st1 xs outs st' ->
      factorized_in_order st (x :: xs) (fs :: outs) st'.

(** [0 <= cache_size <= MAX_CACHE_SIZE]. *)
Definition size_in_bounds (st : state) : Prop :=
  0 <= cache_size st <= MAX_CACHE_SIZE.

(** The numbers of the entries in use, in the order of the array. *)
Definition cache_keys (st : state) : list Z :=
  number <$> take (Z.to_nat (cache_size st)) (factor_cache st).

(** [st'] keeps the entries in use of [st]: the counter has not decreased and
    the entries below the counter of [st] are unchanged. *)
Definition cache_extends (st st' : state) : Prop :=
  cache_size st <= cache_size st'
  /\ take (Z.to_nat (cache_size st)) (factor_cache st')
     = take (Z.to_nat (cache_size st)) (factor_cache st).

(** * Correctness of the loops and of the cache *)

(** ** Arithmetic of the Newton iteration *)

Section Newton.

Variable n : Z.
Hypothesis n_pos : 0 <= n.

Lemma newton_sum_le (x : Z) : 1 <= x <= n -> x + n / x <= n + 1.
Proof.
  intros Hx.
  assert (Hq : x * (n / x) <= n) by (apply Z.mul_div_le; lia).
  assert (Hq1 : 1 <= n / x)
    by (apply Z.div_le_lower_bound; lia).
  nia.
Qed.

Lemma newton_step_ge (x : Z) : 1 <= x -> Z.sqrt n <= (x + n / x) / 2.
Proof.
  intros Hx.
  pose proof (Z.sqrt_spec n n_pos) as [Hlo _].
  pose proof (Z.sqrt_nonneg n) as Hs0.
  assert (Hq : n < x * (n / x) + x).
  { pose proof (Z.mul_succ_div_gt n x ltac:(lia)). lia. }
  assert (Hq0 : 0 <= n / x) by (apply Z.div_pos; lia).
  apply Z.div_le_lower_bound; [lia|].
  destruct (Z_lt_le_dec (x + n / x) (2 * Z.sqrt n)) as [Hlt|]; [|lia].
  exfalso.
  generalize dependent (n / x); intros a Hq Hq0 Hlt.
  generalize dependent (Z.sqrt n); intros r Hlo Hs0 Hlt.
  assert (H4 : (x + a + 1) * (x + a + 1) <= 4 * (r * r)) by nia.
  pose proof (Z.square_nonneg (x - (a + 1))) as H5.
  nia.
Qed.

Lemma newton_quot_le (x : Z) : Z.sqrt n < x -> n / x <= Z.sqrt n.
Proof.
  intros Hx.
  pose proof (Z.sqrt_spec n n_pos) as [_ Hhi].
  pose proof (Z.sqrt_nonneg n) as Hs0.
  assert (Hlt : n / x < Z.sqrt n + 1); [|lia].
  apply Z.div_lt_upper_bound; [lia|]. nia.
Qed.

Lemma newton_fixpoint (x : Z) : 1 <= x -> x <= (x + n / x) / 2 -> x <= Z.sqrt n.
Proof.
  intros Hx Hy.
  assert (H2 : 2 * x <= x + n / x).
  { pose proof (Z.mul_div_le (x + n / x) 2 ltac:(lia)). lia. }
  assert (Hq : x * (n / x) <= n) by (apply Z.mul_div_le; lia).
  apply Z.sqrt_le_square; [lia|lia|nia].
Qed.

End Newton.

(** ** [isqrt] below the top of the range *)

Lemma u32_small (z : Z) : 0 <= z < U32_MOD -> u32 z = z.
Proof. intros Hz. unfold u32. now apply Z.mod_small. Qed.

Lemma udiv_ok (a b : Z) : b <> 0 -> udiv a b = Ok (a / b).
Proof. intros Hb. unfold udiv. now destruct (Z.eqb_spec b 0). Qed.

Lemma umod_ok (a b : Z) : b <> 0 -> umod a b = Ok (a mod b).
Proof. intros Hb. unfold umod. now destruct (Z.eqb_spec b 0). Qed.

Lemma sqrt_ge_1 (n : Z) : 1 <= n -> 1 <= Z.sqrt n.
Proof. intros Hn. pose proof (Z.sqrt_pos n). lia. Qed.

(** The distance to the root at least halves at every turn of the loop. *)
Lemma isqrt_loop_spec (fuel : nat) (n : Z) :
  2 <= n < UINT32_MAX ->
  forall x : Z,
    Z.sqrt n <= x <= n ->
    x - Z.sqrt n < 2 ^ Z.of_nat fuel ->
    isqrt_loop fuel n x (u32 (x + n / x) / 2) = Ok (Z.sqrt n).
Proof.
  intros Hn.
  assert (Hn0 : 0 <= n) by lia.
  pose proof (sqrt_ge_1 n ltac:(lia)) as Hs1.
  assert (Hnowrap : forall x, Z.sqrt n <= x <= n -> u32 (x + n / x) = x + n / x).
  { intros x Hx. apply u32_small.
    pose proof (newton_sum_le n Hn0 x ltac:(lia)).
    assert (0 <= n / x) by (apply Z.div_pos; lia).
    unfold UINT32_MAX, U32_MOD in *. lia. }
  induction fuel as [|fuel IH]; intros x Hx Hgap.
  - change (2 ^ Z.of_nat 0) with 1 in Hgap.
    assert (x = Z.sqrt n) as -> by lia.
    cbn [isqrt_loop]. rewrite Hnowrap by lia.
    pose proof (newton_step_ge n Hn0 (Z.sqrt n) Hs1).
    destruct (Z.ltb_spec ((Z.sqrt n + n / Z.sqrt n) / 2) (Z.sqrt n)); [lia|reflexivity].
  - cbn [isqrt_loop]. rewrite Hnowrap by lia.
    set (y := (x + n / x) / 2).
    pose proof (newton_step_ge n Hn0 x ltac:(lia)) as Hy. fold y in Hy.
    destruct (Z.ltb_spec y x) as [Hlt|Hge].
    + rewrite udiv_ok by lia. cbn.
      apply IH; [lia|].
      pose proof (newton_quot_le n Hn0 x ltac:(lia)) as Hq.
      assert (H2 : 2 * y <= x + n / x)
        by (subst y; apply Z.mul_div_le; lia).
      rewrite Nat2Z.inj_succ, Z.pow_succ_r in Hgap by lia.
      lia.
    + pose proof (newton_fixpoint n Hn0 x ltac:(lia) Hge). f_equal. lia.
Qed.

Lemma isqrt_spec (n : Z) : 0 <= n < UINT32_MAX -> isqrt n = Ok (Z.sqrt n).
Proof.
  intros Hn. unfold isqrt.
  destruct (Z.ltb_spec n 2) as [Hlt|Hge].
  - assert (n = 0 \/ n = 1) as [-> | ->] by lia; reflexivity.
  - cbv zeta.
    replace (n + 1) with (n + n / n) by (rewrite Z.div_same by lia; reflexivity).
    apply isqrt_loop_spec; [lia| |].
    + pose proof (Z.sqrt_le_lin n). lia.
    + pose proof (Z.sqrt_nonneg n).
      assert (n < 2 ^ 32) by (unfold UINT32_MAX in Hn; lia).
      assert (2 ^ 32 < 2 ^ Z.of_nat ISQRT_FUEL) by reflexivity.
      lia.
Qed.

Lemma isqrt_bound (n : Z) : 0 <= n < U32_MOD -> Z.sqrt n <= 65535.
Proof.
  intros Hn.
  assert (Z.sqrt n < 65536); [|lia].
  apply Z.sqrt_lt_square; unfold U32_MOD in Hn; lia.
Qed.

(** ** Products, order and divisors *)

Lemma product_app (fs gs : list Z) : product (fs ++ gs) = product fs * product gs.
Proof.
  unfold product. induction fs as [|f fs IH]; cbn [app fold_right]; [lia|].
  rewrite IH. lia.
Qed.

Lemma product_snoc (fs : list Z) (x : Z) : product (fs ++ [x]) = product fs * x.
Proof. rewrite product_app. unfold product. cbn. lia. Qed.

(** A sequence of [k] factors, each at least 2, has a product of at least
    [2^k]. *)
Lemma pow2_le_product (fs : list Z) :
  Forall (fun f => 2 <= f) fs -> 2 ^ Z.of_nat (length fs) <= product fs.
Proof.
  induction 1 as [|f fs Hf _ IH].
  - reflexivity.
  - cbn [length]. rewrite Nat2Z.inj_succ, Z.pow_succ_r by lia.
    change (product (f :: fs)) with (f * product fs).
    assert (0 < 2 ^ Z.of_nat (length fs)) by (apply Z.pow_pos_nonneg; lia).
    nia.
Qed.

Lemma non_decreasing_nil : non_decreasing [].
Proof. intros i a b Ha. discriminate. Qed.

Lemma non_decreasing_snoc (fs : list Z) (x : Z) :
  non_decreasing fs -> Forall (fun f => f <= x) fs -> non_decreasing (fs ++ [x]).
Proof.
  intros Hfs Hle i a b Ha Hb.
  destruct (decide (S i < length fs)%nat) as [Hlt|Hge].
  - rewrite lookup_app_l in Ha by lia. rewrite lookup_app_l in Hb by lia.
    eauto.
  - assert (Hi : (i < length fs)%nat).
    { apply lookup_lt_Some in Hb. rewrite length_app in Hb. cbn in Hb. lia. }
    rewrite lookup_app_l in Ha by lia.
    rewrite lookup_app_r in Hb by lia.
    replace (S i - length fs)%nat with 0%nat in Hb by lia.
    cbn in Hb. injection Hb as <-.
    rewrite Forall_forall in Hle. apply Hle.
    apply list_elem_of_In. eapply list_elem_of_lookup_2. exact Ha.
Qed.

Lemma no_divisor_below_quotient (c n q : Z) :
  (q | n) -> no_divisor_below c n -> no_divisor_below c q.
Proof.
  intros Hq Hn d Hd Hmod. apply (Hn d Hd).
  apply Z.mod_divide; [lia|].
  apply Z.divide_trans with q; [|exact Hq].
  apply Z.mod_divide; [lia|exact Hmod].
Qed.

Lemma no_divisor_below_one (c : Z) : no_divisor_below c 1.
Proof. intros d Hd. rewrite Z.mod_1_l; lia. Qed.

Lemma no_divisor_below_succ (c n : Z) :
  no_divisor_below c n -> n mod c <> 0 -> no_divisor_below (c + 1) n.
Proof.
  intros Hn Hc d Hd. destruct (decide (d = c)) as [->|]; [exact Hc|].
  apply Hn. lia.
Qed.

(** Going past numbers that have a divisor already excluded. *)
Lemma no_divisor_below_skip (c c' n : Z) :
  no_divisor_below c n ->
  (forall d, c <= d < c' -> exists e, 2 <= e < c /\ d mod e = 0) ->
  no_divisor_below c' n.
Proof.
  intros Hn Hgap d Hd Hmod.
  destruct (Z_lt_le_dec d c) as [Hlt|Hge]; [apply (Hn d); [lia|exact Hmod]|].
  destruct (Hgap d ltac:(lia)) as (e & He & Hde).
  apply (Hn e He).
  apply Z.mod_divide; [lia|].
  apply Z.divide_trans with d; apply Z.mod_divide; (lia || assumption).
Qed.

(** A number above 1 with no divisor below [c] is at least [c]. *)
Lemma no_divisor_below_ge (c n : Z) : 1 < n -> no_divisor_below c n -> c <= n.
Proof.
  intros Hn Hc. destruct (Z_lt_le_dec n c) as [Hlt|]; [|lia].
  exfalso. apply (Hc n); [lia|]. apply Z.mod_same. lia.
Qed.

Lemma loop_inv_weaken (N c c' n : Z) (fs : list Z) :
  c <= c' -> loop_inv N c n fs -> loop_inv N c' n fs.
Proof.
  intros Hc [H1 H2 H3 H4]. split; try assumption.
  eapply List.Forall_impl; [|exact H4]. cbn. intros f Hf. lia.
Qed.

Lemma loop_inv_divide (N c n : Z) (fs : list Z) :
  2 <= c -> loop_inv N (c + 1) n fs -> n mod c = 0 ->
  loop_inv N (c + 1) (n / c) (fs ++ [c]).
Proof.
  intros Hc [H1 H2 H3 H4] Hmod.
  assert (Hn : n = c * (n / c)) by (apply Z.div_exact; lia).
  split.
  - assert (0 < n / c); [|lia]. apply Z.div_str_pos.
    destruct (Z_lt_le_dec n c) as [Hlt|]; [|lia].
    rewrite Z.mod_small in Hmod; lia.
  - rewrite product_snoc. rewrite <- H2. nia.
  - apply non_decreasing_snoc; [exact H3|].
    eapply List.Forall_impl; [|exact H4]. cbn. intros f Hf. lia.
  - apply Forall_app. split; [exact H4|]. repeat constructor; lia.
Qed.

Lemma bind_ok {A B} (a : A) (f : A -> result B) : (Ok a ≫= f) = f a.
Proof. reflexivity. Qed.

(** ** The loops of the trial-division factorizer *)

Section DivideOut.

Variables N p : Z.
Hypothesis p_ge_2 : 2 <= p.

(** Dividing [p] out ends, keeps the invariant and leaves a cofactor that
    [p] does not divide. *)
Lemma divide_out_spec (fuel : nat) :
  forall (n : Z) (fs : list Z),
    loop_inv N (p + 1) n fs ->
    no_divisor_below p n ->
    n < 2 ^ Z.of_nat fuel ->
    exists n' fs',
      divide_out fuel p n fs = Ok (n', fs')
      /\ loop_inv N (p + 1) n' fs'
      /\ no_divisor_below (p + 1) n'
      /\ n' <= n.
Proof.
  induction fuel as [|fuel IH]; intros n fs Hinv Hdiv Hn.
  - destruct Hinv as [H1 _ _ _]. change (2 ^ Z.of_nat 0) with 1 in Hn. lia.
  - cbn [divide_out]. rewrite umod_ok, bind_ok by lia.
    destruct (Z.eqb_spec (n mod p) 0) as [Hmod|Hmod].
    + rewrite udiv_ok, bind_ok by lia.
      pose proof (loop_inv_divide N p n fs p_ge_2 Hinv Hmod) as Hinv'.
      assert (Hnq : n = p * (n / p)) by (apply Z.div_exact; lia).
      pose proof (inv_cofactor _ _ _ _ Hinv').
      destruct (IH (n / p) (fs ++ [p]) Hinv') as (n' & fs' & Heq & Hi & Hd & Hle).
      * apply no_divisor_below_quotient with n; [|exact Hdiv].
        exists p. lia.
      * rewrite Nat2Z.inj_succ, Z.pow_succ_r in Hn by lia. nia.
      * exists n', fs'. split_and!; [assumption..|nia].
    + exists n, fs. split_and!; [done|done| |lia].
      now apply no_divisor_below_succ.
Qed.

(** The same loop with the square root recomputed after each division. *)
Lemma divide_out_sqrt_spec (fuel : nat) :
  forall (n : Z) (fs : list Z) (sqrt_n : Z),
    loop_inv N (p + 1) n fs ->
    no_divisor_below p n ->
    n < 2 ^ Z.of_nat fuel ->
    n < U32_MOD ->
    sqrt_n = Z.sqrt n ->
    exists n' fs',
      divide_out_sqrt fuel p n fs sqrt_n = Ok (n', fs', Z.sqrt n')
      /\ loop_inv N (p + 1) n' fs'
      /\ no_divisor_below (p + 1) n'
      /\ n' <= n.
Proof.
  induction fuel as [|fuel IH]; intros n fs sqrt_n Hinv Hdiv Hn Hu Hs.
  - destruct Hinv as [H1 _ _ _]. change (2 ^ Z.of_nat 0) with 1 in Hn. lia.
  - cbn [divide_out_sqrt]. rewrite umod_ok, bind_ok by lia.
    destruct (Z.eqb_spec (n mod p) 0) as [Hmod|Hmod].
    + rewrite udiv_ok, bind_ok by lia.
      pose proof (loop_inv_divide N p n fs p_ge_2 Hinv Hmod) as Hinv'.
      assert (Hnq : n = p * (n / p)) by (apply Z.div_exact; lia).
      pose proof (inv_cofactor _ _ _ _ Hinv').
      rewrite isqrt_spec, bind_ok
        by (unfold UINT32_MAX, U32_MOD in *; nia).
      destruct (IH (n / p) (fs ++ [p]) (Z.sqrt (n / p)) Hinv')
        as (n' & fs' & Heq & Hi & Hd & Hle).
      * apply no_divisor_below_quotient with n; [|exact Hdiv].
        exists p. lia.
      * rewrite Nat2Z.inj_succ, Z.pow_succ_r in Hn by lia. nia.
      * nia.
      * reflexivity.
      * exists n', fs'. split_and!; [assumption..|nia].
    + exists n, fs. subst sqrt_n. split_and!; [done|done| |lia].
      now apply no_divisor_below_succ.
Qed.

End DivideOut.

(** *** The pass over the small primes *)

Lemma small_primes_chain : primes_chain 2 small_primes = true.
Proof. vm_compute. reflexivity. Qed.

Lemma gap_covered_spec (c p d : Z) :
  gap_covered c p = true -> c <= d < p -> exists e, 2 <= e < c /\ d mod e = 0.
Proof.
  unfold gap_covered, has_divisor_below. intros Hgap Hd.
  rewrite forallb_forall in Hgap.
  specialize (Hgap d). rewrite existsb_exists in Hgap.
  destruct Hgap as (e & He & Hmod).
  - apply list_elem_of_In, elem_of_seqZ. lia.
  - apply list_elem_of_In, elem_of_seqZ in He.
    exists e. split; [lia|]. now apply Z.eqb_eq.
Qed.

Lemma primes_chain_end (ps : list Z) :
  forall c, primes_chain c ps = true -> c <= chain_end c ps.
Proof.
  unfold chain_end.
  induction ps as [|p ps IH]; intros c Hc; cbn [fold_left]; [lia|].
  cbn [primes_chain] in Hc.
  apply andb_prop in Hc as [Hc Hps]. apply andb_prop in Hc as [Hcp _].
  apply Z.leb_le in Hcp. specialize (IH (p + 1) Hps). lia.
Qed.

Lemma small_prime_loop_spec (N : Z) (ps : list Z) :
  forall (c n : Z) (fs : list Z),
    primes_chain c ps = true ->
    2 <= c ->
    Forall (fun p => p <= 71) ps ->
    loop_inv N c n fs ->
    no_divisor_below c n ->
    n < U32_MOD ->
    exists n' fs',
      small_prime_loop ps n fs = Ok (n', fs')
      /\ n' <= n
      /\ small_pass_post N (chain_end c ps) n' fs'.
Proof.
  induction ps as [|p ps IH]; intros c n fs Hchain Hc Hps Hinv Hdiv Hn.
  - exists n, fs. split_and!; [reflexivity|lia|]. left. now split.
  - cbn [primes_chain] in Hchain.
    apply andb_prop in Hchain as [Hchain Hrest].
    apply andb_prop in Hchain as [Hcp Hgap]. apply Z.leb_le in Hcp.
    inversion Hps as [|? ? Hp71 Hps']; subst; clear Hps; rename Hps' into Hps.
    assert (Hdivp : no_divisor_below p n).
    { apply no_divisor_below_skip with c; [exact Hdiv|].
      intros d Hd. now apply gap_covered_spec with p. }
    destruct (divide_out_spec N p ltac:(lia) DIVIDE_FUEL n fs)
      as (n1 & fs1 & Heq & Hinv1 & Hdiv1 & Hle1).
    { apply loop_inv_weaken with c; [lia|exact Hinv]. }
    { exact Hdivp. }
    { unfold U32_MOD in Hn. exact Hn. }
    pose proof (inv_cofactor _ _ _ _ Hinv1) as Hn1.
    pose proof (primes_chain_end ps (p + 1) Hrest) as Hend.
    cbn [small_prime_loop]. rewrite Heq, bind_ok. cbv beta iota.
    change (chain_end c (p :: ps)) with (chain_end (p + 1) ps).
    destruct (Z.eqb_spec n1 1) as [->|Hne].
    { exists 1, fs1. split_and!; [reflexivity|lia|]. left. split.
      - apply loop_inv_weaken with (p + 1); assumption.
      - apply no_divisor_below_one. }
    assert (Hpp : u32 (p * p) = p * p)
      by (apply u32_small; unfold U32_MOD; nia).
    rewrite Hpp.
    destruct (Z.gtb_spec (p * p) n1) as [Hsq|Hsq].
    { exists n1, (fs1 ++ [n1]).
      destruct (Z.gtb_spec n1 1) as [_|]; [|lia].
      split_and!; [reflexivity|lia|]. right. exists fs1.
      split_and!; [reflexivity| |nia..].
      apply loop_inv_weaken with (p + 1); [|exact Hinv1].
      apply no_divisor_below_ge; [lia|exact Hdiv1]. }
    destruct (IH (p + 1) n1 fs1 Hrest ltac:(lia) Hps Hinv1 Hdiv1 ltac:(lia))
      as (n' & fs' & Heq' & Hle' & Hpost).
    exists n', fs'. split_and!; [exact Heq'|lia|exact Hpost].
Qed.

(** *** The pass over the odd candidates *)

Lemma odd_candidate_loop_spec (N : Z) (fuel : nat) :
  forall (c n : Z) (fs : list Z),
    loop_inv N c n fs ->
    no_divisor_below c n ->
    3 <= c ->
    c mod 2 = 1 ->
    n < U32_MOD ->
    65536 - c <= 2 * Z.of_nat fuel ->
    exists n' fs' c',
      odd_candidate_loop fuel c n fs (Z.sqrt n) = Ok (n', fs')
      /\ loop_inv N c' n' fs'
      /\ no_divisor_below c' n'
      /\ Z.sqrt n' < c'.
Proof.
  induction fuel as [|fuel IH]; intros c n fs Hinv Hdiv Hc Hodd Hn Hfuel.
  - pose proof (inv_cofactor _ _ _ _ Hinv).
    pose proof (isqrt_bound n ltac:(lia)) as Hs.
    cbn [odd_candidate_loop].
    destruct (Z.leb_spec c (Z.sqrt n)); [lia|].
    exists n, fs, c. split_and!; [reflexivity|assumption..|lia].
  - pose proof (inv_cofactor _ _ _ _ Hinv).
    pose proof (isqrt_bound n ltac:(lia)) as Hs.
    cbn [odd_candidate_loop].
    destruct (Z.leb_spec c (Z.sqrt n)) as [Hle|Hgt].
    + destruct (divide_out_sqrt_spec N c ltac:(lia) DIVIDE_FUEL n fs (Z.sqrt n))
        as (n1 & fs1 & Heq & Hinv1 & Hdiv1 & Hle1).
      { apply loop_inv_weaken with c; [lia|exact Hinv]. }
      { exact Hdiv. }
      { unfold U32_MOD in Hn. exact Hn. }
      { exact Hn. }
      { reflexivity. }
      rewrite Heq, bind_ok. cbv beta iota.
      rewrite u32_small by (unfold U32_MOD; lia).
      apply IH.
      * apply loop_inv_weaken with (c + 1); [lia|exact Hinv1].
      * apply no_divisor_below_skip with (c + 1); [exact Hdiv1|].
        intros d Hd. assert (d = c + 1) as -> by lia.
        exists 2. split; [lia|].
        rewrite Z.add_mod, Hodd by lia. reflexivity.
      * lia.
      * rewrite Z.add_mod, Hodd by lia. reflexivity.
      * lia.
      * lia.
    + exists n, fs, c. split_and!; [reflexivity|assumption..|lia].
Qed.

(** *** What a cache miss computes *)

(** The constants of [prime_factorize_optimized], evaluated. *)
Lemma factorize_uncached_eq (n : Z) :
  factorize_uncached n =
    ('(n, fs) ← small_prime_loop small_primes n [];
     if n >? 1 then
       '(n, fs) ←
         (if 5041 <=? n then
            sqrt_n ← isqrt n;
            odd_candidate_loop CANDIDATE_FUEL 73 n fs sqrt_n
          else Ok (n, fs));
       Ok (if n >? 1 then fs ++ [n] else fs)
     else Ok fs).
Proof. reflexivity. Qed.

Lemma loop_inv_factors_ge_2 (N c n : Z) (fs : list Z) :
  loop_inv N c n fs -> Forall (fun f => 2 <= f) fs.
Proof.
  intros [_ _ _ H]. eapply List.Forall_impl; [|exact H]. cbn. intros; lia.
Qed.

Lemma loop_inv_factors_le (N c n x : Z) (fs : list Z) :
  loop_inv N c n fs -> c <= x -> Forall (fun f => f <= x) fs.
Proof.
  intros [_ _ _ H] Hx. eapply List.Forall_impl; [|exact H]. cbn. intros; lia.
Qed.

(** The last step: a cofactor above 1 is written after the loops. *)
Lemma final_cofactor_post (N c n : Z) (fs : list Z) :
  loop_inv N c n fs -> no_divisor_below c n ->
  uncached_post N (if n >? 1 then fs ++ [n] else fs).
Proof.
  intros Hinv Hdiv.
  pose proof (loop_inv_factors_ge_2 _ _ _ _ Hinv) as Hge2.
  destruct Hinv as [H1 H2 H3 H4].
  destruct (Z.gtb_spec n 1) as [Hn|Hn].
  - pose proof (no_divisor_below_ge c n Hn Hdiv) as Hcn.
    split_and!.
    + apply non_decreasing_snoc; [exact H3|].
      eapply List.Forall_impl; [|exact H4]. cbn. intros; lia.
    + apply Forall_app. split; [exact Hge2|]. repeat constructor; lia.
    + left. now rewrite product_snoc.
  - assert (n = 1) as -> by lia.
    split_and!; [exact H3|exact Hge2|left; lia].
Qed.

Theorem factorize_uncached_spec (N : Z) :
  2 <= N < U32_MOD ->
  exists fs, factorize_uncached N = Ok fs /\ uncached_post N fs.
Proof.
  intros HN. rewrite factorize_uncached_eq.
  destruct (small_prime_loop_spec N small_primes 2 N [])
    as (n1 & fs1 & Heq & Hle & Hpost).
  { exact small_primes_chain. }
  { lia. }
  { unfold small_primes. repeat constructor; lia. }
  { split; [lia|unfold product; cbn; lia|apply non_decreasing_nil|constructor]. }
  { intros d Hd. lia. }
  { lia. }
  rewrite Heq, bind_ok. cbv beta iota.
  change (chain_end 2 small_primes) with 72 in Hpost.
  destruct Hpost as [[Hinv Hdiv]|(fs0 & -> & Hinv & Hn1)].
  - pose proof (inv_cofactor _ _ _ _ Hinv) as Hn1.
    destruct (Z.gtb_spec n1 1) as [Hgt|Hgt].
    + destruct (Z.leb_spec 5041 n1) as [Hbig|Hsmall].
      * assert (Hn1max : n1 < UINT32_MAX).
        { assert (n1 <> UINT32_MAX); [|unfold UINT32_MAX, U32_MOD in *; lia].
          intros ->. apply (Hdiv 3); [lia|reflexivity]. }
        rewrite isqrt_spec, bind_ok by lia.
        destruct (odd_candidate_loop_spec N CANDIDATE_FUEL 73 n1 fs1)
          as (n2 & fs2 & c' & Heq2 & Hinv2 & Hdiv2 & _).
        { apply loop_inv_weaken with 72; [lia|exact Hinv]. }
        { apply no_divisor_below_skip with 72; [exact Hdiv|].
          intros d Hd. assert (d = 72) as -> by lia.
          exists 2. split; [lia|reflexivity]. }
        { lia. }
        { reflexivity. }
        { lia. }
        { unfold CANDIDATE_FUEL. rewrite Z2Nat.id; lia. }
        rewrite Heq2, bind_ok. cbv beta iota.
        eexists. split; [reflexivity|].
        now apply final_cofactor_post with c'.
      * rewrite bind_ok. cbv beta iota.
        eexists. split; [reflexivity|].
        now apply final_cofactor_post with 72.
    + assert (n1 = 1) as -> by lia.
      exists fs1. split; [reflexivity|].
      apply (final_cofactor_post N 72 1 fs1 Hinv Hdiv).
  - destruct (Z.gtb_spec n1 1) as [_|]; [|lia].
    destruct (Z.leb_spec 5041 n1) as [|_]; [lia|].
    rewrite bind_ok. cbv beta iota.
    destruct (Z.gtb_spec n1 1) as [_|]; [|lia].
    eexists. split; [reflexivity|].
    pose proof (loop_inv_factors_ge_2 _ _ _ _ Hinv) as Hge2.
    pose proof (loop_inv_factors_le _ _ _ n1 _ Hinv ltac:(lia)) as Hle1.
    destruct Hinv as [H1 H2 H3 H4].
    split_and!.
    + apply non_decreasing_snoc.
      * now apply non_decreasing_snoc.
      * apply Forall_app. split; [exact Hle1|]. repeat constructor; lia.
    + rewrite !Forall_app. split_and!; [exact Hge2|..]; repeat constructor; lia.
    + right. exists fs0, n1. rewrite <- app_assoc.
      split_and!; [reflexivity| |lia..]. now rewrite product_snoc.
Qed.

(** The factorizer writes at most 32 factors: 31 fit in 32 bits, and the last
    one may be written twice. *)
Lemma uncached_post_length (N : Z) (fs : list Z) :
  N < U32_MOD -> uncached_post N fs -> (length fs <= 32)%nat.
Proof.
  intros HN (_ & Hge2 & [Hprod|(fs0 & m & -> & Hprod & Hm)]).
  - pose proof (pow2_le_product fs Hge2) as Hpow.
    assert (Z.of_nat (length fs) < 32); [|lia].
    apply (Z.pow_lt_mono_r_iff 2); unfold U32_MOD in HN; lia.
  - assert (Hge2' : Forall (fun f => 2 <= f) (fs0 ++ [m])).
    { apply Forall_app. apply Forall_app in Hge2 as [H0 _].
      split; [exact H0|]. repeat constructor; lia. }
    pose proof (pow2_le_product _ Hge2') as Hpow.
    assert (Z.of_nat (length (fs0 ++ [m])) < 32).
    { apply (Z.pow_lt_mono_r_iff 2); unfold U32_MOD in HN; lia. }
    rewrite length_app in *. cbn [length] in *. lia.
Qed.

(** ** The cache *)

(** A computation against the cache at process start is a cache miss. *)
Lemma returned_fresh (n : Z) :
  1 < n -> returned (prime_factorize_optimized n init_state) = factorize_uncached n.
Proof.
  intros Hn. unfold prime_factorize_optimized.
  destruct (Z.leb_spec n 1); [lia|].
  change (check_cache n init_state) with (@None (list Z)).
  now destruct (factorize_uncached n).
Qed.

Lemma cache_inv_init : cache_inv init_state.
Proof.
  split.
  - cbn. unfold MAX_CACHE_SIZE. lia.
  - cbn [init_state factor_cache]. apply length_replicate.
  - cbn [init_state cache_size]. intros i e Hi. lia.
Qed.

Lemma cache_inv_clear (st : state) : cache_inv (clear_factorization_cache st).
Proof. exact cache_inv_init. Qed.

Lemma check_cache_scan_Some (entries : list FactorCache) (n : Z) (fs : list Z) :
  check_cache_scan entries n = Some fs ->
  exists (i : nat) (e : FactorCache),
    entries !! i = Some e
    /\ number e = n
    /\ fs = take (Z.to_nat (factor_count e)) (factors e).
Proof.
  induction entries as [|e entries IH]; cbn [check_cache_scan]; [discriminate|].
  destruct (Z.eqb_spec (number e) n) as [Heq|Hne].
  - intros [= <-]. exists 0%nat, e. now split_and!.
  - intros Hfs. destruct (IH Hfs) as (i & e' & Hi & He).
    exists (S i), e'. now split.
Qed.

(** A hit gives what a miss would compute. *)
Lemma check_cache_hit (st : state) (n : Z) (fs : list Z) :
  cache_inv st -> check_cache n st = Some fs ->
  2 <= n < U32_MOD /\ factorize_uncached n = Ok fs.
Proof.
  intros Hinv Hhit. unfold check_cache in Hhit.
  apply check_cache_scan_Some in Hhit as (i & e & Hi & <- & ->).
  apply lookup_take_Some in Hi as [Hi Hlt].
  apply (ci_entries st Hinv i e); [|exact Hi].
  pose proof (ci_size st Hinv). lia.
Qed.

Lemma add_to_cache_full (n : Z) (fs : list Z) (st : state) :
  MAX_CACHE_SIZE <= cache_size st -> add_to_cache n fs st = st.
Proof.
  intros Hfull. unfold add_to_cache.
  destruct (Z.geb_spec (cache_size st) MAX_CACHE_SIZE); [reflexivity|lia].
Qed.

Lemma add_to_cache_size (n : Z) (fs : list Z) (st : state) :
  cache_size st <= MAX_CACHE_SIZE ->
  cache_size st <= cache_size (add_to_cache n fs st) <= MAX_CACHE_SIZE.
Proof.
  intros Hsz. unfold add_to_cache.
  destruct (Z.geb_spec (cache_size st) MAX_CACHE_SIZE);
    destruct (Z.geb_spec (Z.of_nat (length fs)) MAX_FACTORS);
    cbn [orb cache_size]; lia.
Qed.

Lemma add_to_cache_inv (n : Z) (fs : list Z) (st : state) :
  cache_inv st ->
  2 <= n < U32_MOD ->
  factorize_uncached n = Ok fs ->
  cache_inv (add_to_cache n fs st).
Proof.
  intros [Hsz Hlen Hent] Hn Hfs. unfold add_to_cache.
  destruct (Z.geb_spec (cache_size st) MAX_CACHE_SIZE) as [|Hroom];
    [now split|].
  destruct (Z.geb_spec (Z.of_nat (length fs)) MAX_FACTORS) as [|Hcount];
    [now split|].
  cbn [orb]. split; cbn [cache_size factor_cache].
  - lia.
  - now rewrite length_alter.
  - intros i e Hi He.
    destruct (decide (i = Z.to_nat (cache_size st))) as [->|Hne].
    + rewrite list_lookup_alter_eq in He.
      destruct (factor_cache st !! Z.to_nat (cache_size st)) as [e0|];
        [|discriminate].
      injection He as <-. unfold entry_ok. cbn [number factor_count factors].
      split; [exact Hn|]. rewrite Hfs. f_equal.
      rewrite Z.mod_small by (unfold MAX_FACTORS in Hcount; lia).
      unfold memcpy. rewrite Nat2Z.id.
      rewrite (take_ge fs (length fs)) by lia.
      symmetry. apply take_app_length.
    + rewrite list_lookup_alter_ne in He by congruence.
      apply (Hent i e); [lia|exact He].
Qed.

(** ** [prime_factorize_optimized] on any argument and in any cache state
    that satisfies the invariant *)

Lemma prime_factorize_optimized_spec (n : Z) (st : state) :
  cache_inv st ->
  is_u32 n ->
  exists (fs : list Z) (st' : state),
    prime_factorize_optimized n st = Ok (fs, st')
    /\ cache_inv st'
    /\ returned (prime_factorize_optimized n init_state) = Ok fs
    /\ (1 < n -> uncached_post n fs).
Proof.
  intros Hinv Hn. unfold prime_factorize_optimized at 1.
  destruct (Z.leb_spec n 1) as [Hle|Hgt].
  - exists [], st. split_and!; [reflexivity|exact Hinv| |lia].
    unfold prime_factorize_optimized.
    destruct (Z.leb_spec n 1); [reflexivity|lia].
  - rewrite returned_fresh by lia.
    destruct (factorize_uncached_spec n) as (fs & Heq & Hpost);
      [unfold is_u32 in Hn; lia|].
    destruct (check_cache n st) as [gs|] eqn:Hcc.
    + apply (check_cache_hit st n gs Hinv) in Hcc as [_ Hgs].
      assert (gs = fs) as -> by congruence.
      exists fs, st. now split_and!.
    + rewrite Heq, bind_ok.
      exists fs, (add_to_cache n fs st). split_and!; try done.
      apply add_to_cache_inv; [exact Hinv|unfold is_u32 in Hn; lia|exact Heq].
Qed.

(** ** The drivers *)

Lemma factorized_in_order_length st xs outs st' :
  factorized_in_order st xs outs st' -> length outs = length xs.
Proof. induction 1; cbn [length]; congruence. Qed.

Lemma lua_batch_loop_spec (xs : list Z) :
  forall (out : list (list Z)) (st : state),
    cache_inv st ->
    Forall is_u32 xs ->
    exists (outs : list (list Z)) (st' : state),
      lua_batch_loop xs out st = Ok (out ++ outs, st')
      /\ cache_inv st'
      /\ factorized_in_order st xs outs st'
      /\ Forall2 (fun x fs => returned (prime_factorize_optimized x init_state) = Ok fs)
           xs outs.
Proof.
  induction xs as [|x xs IH]; intros out st Hinv Hxs.
  - exists [], st. rewrite app_nil_r.
    split_and!; [reflexivity|exact Hinv|constructor|constructor].
  - inversion Hxs as [|? ? Hx Hxs']; subst.
    destruct (prime_factorize_optimized_spec x st Hinv Hx)
      as (fs & st1 & Heq & Hinv1 & Hfresh & _).
    destruct (IH (out ++ [fs]) st1 Hinv1 Hxs')
      as (outs & st' & Heq' & Hinv' & Hord & Hall).
    exists (fs :: outs), st'.
    cbn [lua_batch_loop]. rewrite Heq, bind_ok. cbv beta iota.
    rewrite Heq', <- app_assoc.
    split_and!; [reflexivity|exact Hinv'| |].
    + econstructor; eassumption.
    + now constructor.
Qed.

(** The loop of [batch_prime_factorize_avx2] computes the same. *)
Lemma batch_prime_factorize_avx2_spec (xs : list Z) :
  forall (st st' : state) (outs : list (list Z)),
    factorized_in_order st xs outs st' ->
    batch_prime_factorize_avx2 xs st = Ok (outs, st').
Proof.
  induction xs as [|x xs IH]; intros st st' outs Hord;
    inversion Hord; subst; [reflexivity|].
  cbn [batch_prime_factorize_avx2].
  match goal with H : prime_factorize_optimized _ _ = _ |- _ => rewrite H end.
  rewrite bind_ok. cbv beta iota. erewrite IH by eassumption. reflexivity.
Qed.

Lemma precompute_loop_spec (dims : list Z) :
  forall st : state,
    cache_inv st ->
    Forall is_u32 dims ->
    exists st' : state, precompute_loop dims st = Ok st' /\ cache_inv st'.
Proof.
  induction dims as [|d dims IH]; intros st Hinv Hdims.
  - now exists st.
  - inversion Hdims as [|? ? Hd Hdims']; subst.
    cbn [precompute_loop].
    destruct (Z.ltb_spec (cache_size st) MAX_CACHE_SIZE); [|now exists st].
    destruct (prime_factorize_optimized_spec d st Hinv Hd)
      as (fs & st1 & Heq & Hinv1 & _).
    rewrite Heq, bind_ok. cbv beta iota. now apply IH.
Qed.

Lemma common_dims_u32 : Forall is_u32 common_dims.
Proof. unfold common_dims, is_u32, U32_MOD. repeat constructor; lia. Qed.

(** ** Every exposed operation returns, and keeps the cache invariant *)

Lemma run_operation_spec (o : operation) (st : state) :
  cache_inv st ->
  valid_operation o ->
  exists st' : state, run_operation o st = Ok st' /\ cache_inv st'.
Proof.
  intros Hinv Hvalid. destruct o as [n|xs| | |]; cbn [run_operation valid_operation] in *.
  - destruct (prime_factorize_optimized_spec n st Hinv Hvalid)
      as (fs & st' & -> & Hinv' & _).
    now exists st'.
  - destruct (lua_batch_loop_spec xs [] st Hinv Hvalid)
      as (outs & st' & Heq & Hinv' & _).
    unfold lua_batch_prime_factorize. rewrite Heq. now exists st'.
  - destruct (precompute_loop_spec common_dims st Hinv common_dims_u32)
      as (st' & Heq & Hinv').
    unfold lua_precompute_common_dimensions, precompute_common_dimensions.
    rewrite Heq. now exists st'.
  - now exists st.
  - exists (clear_factorization_cache st). split; [reflexivity|].
    apply cache_inv_clear.
Qed.

Lemma reachable_cache_inv (st : state) : reachable st -> cache_inv st.
Proof.
  induction 1 as [|st st' o _ IH Hvalid Hrun]; [exact cache_inv_init|].
  destruct (run_operation_spec o st IH Hvalid) as (st'' & Heq & Hinv).
  congruence.
Qed.

(** ** The size of the cache under any operation *)

Lemma prime_factorize_optimized_size (n : Z) (st st' : state) (fs : list Z) :
  size_in_bounds st ->
  prime_factorize_optimized n st = Ok (fs, st') ->
  size_in_bounds st'.
Proof.
  unfold size_in_bounds, prime_factorize_optimized. intros Hsz.
  destruct (n <=? 1); [intros [= _ <-]; exact Hsz|].
  destruct (check_cache n st); [intros [= _ <-]; exact Hsz|].
  destruct (factorize_uncached n) as [gs| |]; cbn; [|discriminate..].
  intros [= _ <-].
  pose proof (add_to_cache_size n gs st ltac:(lia)). lia.
Qed.

Lemma lua_batch_loop_size (xs : list Z) :
  forall (out outs : list (list Z)) (st st' : state),
    size_in_bounds st ->
    lua_batch_loop xs out st = Ok (outs, st') ->
    size_in_bounds st'.
Proof.
  induction xs as [|x xs IH]; intros out outs st st' Hsz; cbn [lua_batch_loop].
  - now intros [= _ <-].
  - destruct (prime_factorize_optimized x st) as [[fs st1]| |] eqn:Heq;
      cbn; [|discriminate..].
    intros Hrest. eapply IH; [|exact Hrest].
    eapply prime_factorize_optimized_size; eassumption.
Qed.

Lemma precompute_loop_size (dims : list Z) :
  forall st st' : state,
    size_in_bounds st ->
    precompute_loop dims st = Ok st' ->
    size_in_bounds st'.
Proof.
  induction dims as [|d dims IH]; intros st st' Hsz; cbn [precompute_loop].
  - now intros [= <-].
  - destruct (cache_size st <? MAX_CACHE_SIZE); [|now intros [= <-]].
    destruct (prime_factorize_optimized d st) as [[fs st1]| |] eqn:Heq;
      cbn; [|discriminate..].
    intros Hrest. eapply IH; [|exact Hrest].
    eapply prime_factorize_optimized_size; eassumption.
Qed.

Lemma run_operation_size (o : operation) (st st' : state) :
  size_in_bounds st -> run_operation o st = Ok st' -> size_in_bounds st'.
Proof.
  intros Hsz. destruct o as [n|xs| | |]; cbn [run_operation].
  - destruct (prime_factorize_optimized n st) as [[fs st1]| |] eqn:Heq;
      cbn; [|discriminate..].
    intros [= <-]. eapply prime_factorize_optimized_size; eassumption.
  - unfold lua_batch_prime_factorize.
    destruct (lua_batch_loop xs [] st) as [[outs st1]| |] eqn:Heq;
      cbn; [|discriminate..].
    intros [= <-]. eapply lua_batch_loop_size; eassumption.
  - unfold lua_precompute_common_dimensions, precompute_common_dimensions.
    destruct (precompute_loop common_dims st) as [st1| |] eqn:Heq;
      cbn; [|discriminate..].
    intros [= <-]. eapply precompute_loop_size; eassumption.
  - now intros [= <-].
  - intros [= <-]. unfold size_in_bounds, MAX_CACHE_SIZE. cbn. lia.
Qed.

(** ** Cache states used as examples *)

Lemma reachable_after_12 : reachable state_after_12.
Proof.
  apply (reachable_step init_state state_after_12 (OpFactorize 12)).
  - exact reachable_init.
  - unfold valid_operation, is_u32, U32_MOD. lia.
  - vm_compute. reflexivity.
Qed.

Lemma reachable_full : reachable full_state.
Proof.
  apply (reachable_step init_state full_state (OpBatchFactorize (seqZ 2 1000))).
  - exact reachable_init.
  - unfold valid_operation. apply Forall_forall. intros x Hx.
    apply list_elem_of_In, elem_of_seqZ in Hx. unfold is_u32, U32_MOD. lia.
  - vm_compute. reflexivity.
Qed.

Lemma full_state_size : cache_size full_state = MAX_CACHE_SIZE.
Proof. vm_compute. reflexivity. Qed.

(** ** The scenarios of the specification, evaluated *)

Example factorize_9240 :
  returned (prime_factorize_optimized 9240 init_state)
  = Ok [2; 2; 2; 3; 5; 7; 11; 11].
Proof. vm_compute. reflexivity. Qed.

Example factorize_1000003 :
  returned (prime_factorize_optimized 1000003 init_state) = Ok [1000003].
Proof. vm_compute. reflexivity. Qed.

Example batch_factorize_12_60 :
  returned (lua_batch_prime_factorize [12; 60] init_state)
  = Ok [[2; 2; 3; 3]; [2; 2; 3; 5; 5]].
Proof. vm_compute. reflexivity. Qed.

Example wheel_factorize_12 : wheel_factorize 12 = Ok [2; 2; 3].
Proof. vm_compute. reflexivity. Qed.

Example wheel_factorize_7 :
  wheel_factorize 7 = Ok [7]
  /\ returned (prime_factorize_optimized 7 init_state) = Ok [7; 7].
Proof. split; vm_compute; reflexivity. Qed.

Example factorize_longest :
  (length <$> returned (prime_factorize_optimized 3221225472 init_state))
  = Ok 32%nat.
Proof. vm_compute. reflexivity. Qed.

Example isqrt_below_max : isqrt 4294967294 = Ok 65535.
Proof. vm_compute. reflexivity. Qed.

(** * The properties of the specification *)

(** C1. The product of the sequence [prime_factorize_optimized] returns is
    not always its argument: for 12, against the empty cache, it returns
    [2; 2; 3; 3], of product 36, and not [2; 2; 3]. The pass over the small
    primes writes the cofactor 3 when it stops at [2 * 2 > 3] and leaves [n]
    at 3, so that the final [if (n > 1)] writes it a second time. *)
Theorem factorize_12_repeats_cofactor :
  returned (prime_factorize_optimized 12 init_state) = Ok [2; 2; 3; 3]
  /\ product [2; 2; 3; 3] = 36
  /\ product [2; 2; 3; 3] <> 12.
Proof. split_and!; [vm_compute; reflexivity|reflexivity|discriminate]. Qed.

(** C2. [wheel_factorize] and [prime_factorize_optimized] do not return the
    same multiset for 169: the wheel increments 4, 6, 10, ... take the
    candidate from 11 to 17 and skip 13, so [wheel_factorize] returns [169]
    where the trial-division factorizer returns [13; 13]. *)
Theorem wheel_169_differs :
  wheel_factorize 169 = Ok [169]
  /\ returned (prime_factorize_optimized 169 init_state) = Ok [13; 13]
  /\ ~ same_multiset [169] [13; 13].
Proof.
  split_and!; [vm_compute; reflexivity..|].
  intros Hsame. specialize (Hsame 169). vm_compute in Hsame. discriminate.
Qed.

(** C3, as stated, fails: from the empty cache, the size after
    [precompute_common_dimensions] is below the number of distinct values of
    the table, which counts the value 1. *)
Lemma precompute_size_below_distinct_count :
  exists st' : state,
    precompute_common_dimensions init_state = Ok st'
    /\ fst (get_cache_stats st') < Z.of_nat (distinct_count common_dims).
Proof.
  assert (H : (cache_size <$> precompute_common_dimensions init_state) = Ok 27)
    by (vm_compute; reflexivity).
  destruct (precompute_common_dimensions init_state) as [st'| |];
    [|discriminate..].
  injection H as H. exists st'. split; [reflexivity|].
  cbn [get_cache_stats fst]. rewrite H. vm_compute. reflexivity.
Qed.

(** C3, amended. From the empty cache, [precompute_common_dimensions] followed
    by [get_cache_stats] gives a size that is at least the number of distinct
    values of the table above 1 (the value 1 is answered before the cache is
    reached), both being 27, and the binding returns that size. *)
Theorem precompute_from_empty_cache :
  exists st' : state,
    lua_precompute_common_dimensions init_state = Ok (fst (get_cache_stats st'), st')
    /\ Z.of_nat (distinct_count (filter (fun d => 1 < d) common_dims))
       <= fst (get_cache_stats st')
    /\ get_cache_stats st' = (27, MAX_CACHE_SIZE)
    /\ distinct_count (filter (fun d => 1 < d) common_dims) = 27%nat.
Proof.
  assert (H : (cache_size <$> precompute_common_dimensions init_state) = Ok 27)
    by (vm_compute; reflexivity).
  assert (Hd : distinct_count (filter (fun d => 1 < d) common_dims) = 27%nat)
    by (vm_compute; reflexivity).
  unfold lua_precompute_common_dimensions.
  destruct (precompute_common_dimensions init_state) as [st'| |];
    [|discriminate..].
  injection H as H. exists st'. rewrite bind_ok, Hd. unfold get_cache_stats.
  cbn [fst]. rewrite H. split_and!; [reflexivity|lia|reflexivity|reflexivity].
Qed.

(** C4. For every 32-bit [n] and in every reachable cache state,
    [prime_factorize_optimized] returns a sequence in which each element is
    less than or equal to the next. *)
Theorem factorize_non_decreasing (st : state) (n : Z) :
  reachable st ->
  is_u32 n ->
  exists (fs : list Z) (st' : state),
    prime_factorize_optimized n st = Ok (fs, st') /\ non_decreasing fs.
Proof.
  intros Hst Hn.
  destruct (prime_factorize_optimized_spec n st (reachable_cache_inv st Hst) Hn)
    as (fs & st' & Heq & _ & Hfresh & Hpost).
  exists fs, st'. split; [exact Heq|].
  destruct (Z_lt_le_dec 1 n) as [Hgt|Hle].
  - now destruct (Hpost Hgt).
  - unfold prime_factorize_optimized in Hfresh.
    destruct (Z.leb_spec n 1); [|lia].
    injection Hfresh as <-. apply non_decreasing_nil.
Qed.

(** C4 at the cache left by [factorize(12)] and the argument 12, a cache hit. *)
Lemma factorize_non_decreasing_witness :
  reachable state_after_12
  /\ is_u32 12
  /\ exists (fs : list Z) (st' : state),
       prime_factorize_optimized 12 state_after_12 = Ok (fs, st')
       /\ non_decreasing fs.
Proof.
  assert (Hu : is_u32 12) by (unfold is_u32, U32_MOD; lia).
  split_and!; [exact reachable_after_12|exact Hu|].
  exact (factorize_non_decreasing state_after_12 12 reachable_after_12 Hu).
Defined.

(** C5. In every reachable cache state, each entry in use holds, for its
    number, the sequence a computation against the empty cache returns;
    hence a cache hit returns what a fresh computation would. *)
Theorem cache_entries_are_fresh (st : state) :
  reachable st ->
  (forall (i : nat) (e : FactorCache),
      Z.of_nat i < cache_size st ->
      factor_cache st !! i = Some e ->
      returned (prime_factorize_optimized (number e) init_state)
      = Ok (take (Z.to_nat (factor_count e)) (factors e)))
  /\ (forall (n : Z) (fs : list Z),
        check_cache n st = Some fs ->
        prime_factorize_optimized n st = Ok (fs, st)
        /\ returned (prime_factorize_optimized n init_state) = Ok fs).
Proof.
  intros Hst. pose proof (reachable_cache_inv st Hst) as Hinv. split.
  - intros i e Hi He.
    destruct (ci_entries st Hinv i e Hi He) as [Hnum Hfs].
    rewrite returned_fresh by lia. exact Hfs.
  - intros n fs Hhit.
    destruct (check_cache_hit st n fs Hinv Hhit) as [Hn Hfs].
    rewrite returned_fresh by lia. split; [|exact Hfs].
    unfold prime_factorize_optimized.
    destruct (Z.leb_spec n 1); [lia|]. now rewrite Hhit.
Qed.

(** C5 at the cache left by [factorize(12)], whose entry for 12 is hit. *)
Lemma cache_entries_are_fresh_witness :
  reachable state_after_12
  /\ check_cache 12 state_after_12 = Some [2; 2; 3; 3]
  /\ (forall (i : nat) (e : FactorCache),
        Z.of_nat i < cache_size state_after_12 ->
        factor_cache state_after_12 !! i = Some e ->
        returned (prime_factorize_optimized (number e) init_state)
        = Ok (take (Z.to_nat (factor_count e)) (factors e)))
  /\ (forall (n : Z) (fs : list Z),
        check_cache n state_after_12 = Some fs ->
        prime_factorize_optimized n state_after_12 = Ok (fs, state_after_12)
        /\ returned (prime_factorize_optimized n init_state) = Ok fs).
Proof.
  split; [exact reachable_after_12|].
  split; [reflexivity|].
  exact (cache_entries_are_fresh state_after_12 reachable_after_12).
Defined.




Lemma reachable_size_in_bounds (st : state) : reachable st -> size_in_bounds st.
Proof.
  induction 1 as [|st st' o _ IH _ Hrun].
  - unfold size_in_bounds, MAX_CACHE_SIZE. cbn. lia.
  - exact (run_operation_size o st st' IH Hrun).
Qed.

Lemma prime_factorize_optimized_state (n : Z) (st st' : state) (fs : list Z) :
  prime_factorize_optimized n st = Ok (fs, st') ->
  st' = st \/ st' = add_to_cache n fs st.
Proof.
  unfold prime_factorize_optimized.
  destruct (n <=? 1); [intros [= _ <-]; now left|].
  destruct (check_cache n st); [intros [= _ <-]; now left|].
  destruct (factorize_uncached n) as [gs| |]; cbn; [|discriminate..].
  intros [= <- <-]. now right.
Qed.

(** C7. The size of the cache stays between 0 and [MAX_CACHE_SIZE]: it is so
    in every reachable state and after every operation run from one; at
    capacity [add_to_cache] changes nothing, and the factorizer still returns
    the factorization, leaving the cache as it was. *)
Theorem cache_size_within_capacity (st : state) :
  reachable st ->
  0 <= cache_size st <= MAX_CACHE_SIZE
  /\ (forall (o : operation) (st' : state),
        run_operation o st = Ok st' -> 0 <= cache_size st' <= MAX_CACHE_SIZE)
  /\ (cache_size st = MAX_CACHE_SIZE ->
      (forall (n : Z) (fs : list Z), add_to_cache n fs st = st)
      /\ (forall n : Z,
            is_u32 n ->
            exists fs : list Z,
              prime_factorize_optimized n st = Ok (fs, st)
              /\ returned (prime_factorize_optimized n init_state) = Ok fs)).
Proof.
  intros Hst. pose proof (reachable_size_in_bounds st Hst) as Hsz.
  split_and!; try apply Hsz.
  - intros o st' Hrun. exact (run_operation_size o st st' Hsz Hrun).
  - intros Hfull. split.
    + intros n fs. apply add_to_cache_full. lia.
    + intros n Hn.
      destruct (prime_factorize_optimized_spec n st (reachable_cache_inv st Hst) Hn)
        as (fs & st' & Heq & _ & Hfresh & _).
      exists fs. split; [|exact Hfresh].
      destruct (prime_factorize_optimized_state n st st' fs Heq) as [->| ->];
        [exact Heq|].
      rewrite Heq. now rewrite add_to_cache_full by lia.
Qed.

(** C7 at a cache filled to capacity. *)
Lemma cache_size_within_capacity_witness :
  reachable full_state
  /\ cache_size full_state = MAX_CACHE_SIZE
  /\ 0 <= cache_size full_state <= MAX_CACHE_SIZE
  /\ (forall (o : operation) (st' : state),
        run_operation o full_state = Ok st' ->
        0 <= cache_size st' <= MAX_CACHE_SIZE)
  /\ (cache_size full_state = MAX_CACHE_SIZE ->
      (forall (n : Z) (fs : list Z), add_to_cache n fs full_state = full_state)
      /\ (forall n : Z,
            is_u32 n ->
            exists fs : list Z,
              prime_factorize_optimized n full_state = Ok (fs, full_state)
              /\ returned (prime_factorize_optimized n init_state) = Ok fs)).
Proof.
  split; [exact reachable_full|].
  split; [exact full_state_size|].
  exact (cache_size_within_capacity full_state reachable_full).
Defined.

(** C8. For every sequence [xs] of 32-bit numbers, [batch_factorize] (and
    likewise the loop of [batch_prime_factorize_avx2]) returns a sequence of
    the same length, whose element at each index is what the factorizer
    returns for the element of [xs] at that index, the factorizer being
    applied to the elements in input order; each is what a fresh computation
    returns for that element. *)
Theorem batch_factorize_in_order (st : state) (xs : list Z) :
  reachable st ->
  Forall is_u32 xs ->
  exists (outs : list (list Z)) (st' : state),
    lua_batch_prime_factorize xs st = Ok (outs, st')
    /\ batch_prime_factorize_avx2 xs st = Ok (outs, st')
    /\ length outs = length xs
    /\ factorized_in_order st xs outs st'
    /\ (forall (i : nat) (x : Z),
          xs !! i = Some x ->
          exists fs : list Z,
            outs !! i = Some fs
            /\ returned (prime_factorize_optimized x init_state) = Ok fs).
Proof.
  intros Hst Hxs.
  destruct (lua_batch_loop_spec xs [] st (reachable_cache_inv st Hst) Hxs)
    as (outs & st' & Heq & _ & Hord & Hall).
  exists outs, st'. split_and!.
  - exact Heq.
  - exact (batch_prime_factorize_avx2_spec xs st st' outs Hord).
  - exact (factorized_in_order_length _ _ _ _ Hord).
  - exact Hord.
  - intros i x Hi. exact (Forall2_lookup_l _ _ _ _ _ Hall Hi).
Qed.

(** C8 at the cache left by [factorize(12)] and the batch 12, 60. *)
Lemma batch_factorize_in_order_witness :
  reachable state_after_12
  /\ Forall is_u32 [12; 60]
  /\ exists (outs : list (list Z)) (st' : state),
       lua_batch_prime_factorize [12; 60] state_after_12 = Ok (outs, st')
       /\ batch_prime_factorize_avx2 [12; 60] state_after_12 = Ok (outs, st')
       /\ length outs = length [12; 60]
       /\ factorized_in_order state_after_12 [12; 60] outs st'
       /\ (forall (i : nat) (x : Z),
             [12; 60] !! i = Some x ->
             exists fs : list Z,
               outs !! i = Some fs
               /\ returned (prime_factorize_optimized x init_state) = Ok fs).
Proof.
  assert (Hu : Forall is_u32 [12; 60])
    by (unfold is_u32, U32_MOD; repeat constructor; lia).
  split_and!; [exact reachable_after_12|exact Hu|].
  exact (batch_factorize_in_order state_after_12 [12; 60] reachable_after_12 Hu).
Defined.

(** C9. For [n <= 1], [prime_factorize_optimized] returns the empty sequence
    and the cache, contents and size, is what it was before the call. *)
Theorem factorize_at_most_1 (n : Z) (st : state) :
  n <= 1 -> prime_factorize_optimized n st = Ok ([], st).
Proof.
  intros Hn. unfold prime_factorize_optimized.
  destruct (Z.leb_spec n 1); [reflexivity|lia].
Qed.

(** C9 at the arguments 0 and 1. *)
Lemma factorize_at_most_1_witness :
  (0 <= 1 /\ prime_factorize_optimized 0 state_after_12 = Ok ([], state_after_12))
  /\ (1 <= 1 /\ prime_factorize_optimized 1 state_after_12 = Ok ([], state_after_12)).
Proof.
  split; (split; [lia|]).
  - apply (factorize_at_most_1 0 state_after_12). lia.
  - apply (factorize_at_most_1 1 state_after_12). lia.
Defined.

(** C10. For every 32-bit [n] and in every reachable cache state,
    [prime_factorize_optimized] returns at most 32 factors, fewer than
    [MAX_FACTORS], so the test [factor_count >= MAX_FACTORS] of
    [add_to_cache] is false for what the factorizer hands it. *)
Theorem factor_count_at_most_32 (st : state) (n : Z) :
  reachable st ->
  is_u32 n ->
  exists (fs : list Z) (st' : state),
    prime_factorize_optimized n st = Ok (fs, st')
    /\ (length fs <= 32)%nat
    /\ Z.of_nat (length fs) < MAX_FACTORS
    /\ (Z.of_nat (length fs) >=? MAX_FACTORS) = false.
Proof.
  intros Hst Hn.
  destruct (prime_factorize_optimized_spec n st (reachable_cache_inv st Hst) Hn)
    as (fs & st' & Heq & _ & Hfresh & Hpost).
  assert (Hlen : (length fs <= 32)%nat).
  { destruct (Z_lt_le_dec 1 n) as [Hgt|Hle].
    - apply (uncached_post_length n); [apply Hn|exact (Hpost Hgt)].
    - unfold prime_factorize_optimized in Hfresh.
      destruct (Z.leb_spec n 1); [|lia].
      injection Hfresh as <-. cbn. lia. }
  exists fs, st'. unfold MAX_FACTORS.
  split_and!; [exact Heq|exact Hlen|lia|].
  destruct (Z.geb_spec (Z.of_nat (length fs)) 64); [lia|reflexivity].
Qed.

(** C10 at [2^30 * 3], for which 32 factors are written. *)
Lemma factor_count_at_most_32_witness :
  reachable state_after_12
  /\ is_u32 3221225472
  /\ exists (fs : list Z) (st' : state),
       prime_factorize_optimized 3221225472 state_after_12 = Ok (fs, st')
       /\ (length fs <= 32)%nat
       /\ Z.of_nat (length fs) < MAX_FACTORS
       /\ (Z.of_nat (length fs) >=? MAX_FACTORS) = false.
Proof.
  assert (Hu : is_u32 3221225472) by (unfold is_u32, U32_MOD; lia).
  split_and!; [exact reachable_after_12|exact Hu|].
  exact (factor_count_at_most_32 state_after_12 3221225472 reachable_after_12 Hu).
Defined.

(** * Further properties of the code *)

(** ** [isqrt] *)

(** X1. For every 32-bit [n] below the largest one, [isqrt] returns the
    integer square root: the [r] with [r * r <= n < (r + 1) * (r + 1)]. *)
Theorem isqrt_floor_sqrt (n : Z) :
  0 <= n < UINT32_MAX ->
  exists r : Z,
    isqrt n = Ok r /\ 0 <= r <= 65535 /\ r * r <= n < (r + 1) * (r + 1).
Proof.
  intros Hn. exists (Z.sqrt n). split; [now apply isqrt_spec|].
  pose proof (Z.sqrt_spec n ltac:(lia)) as Hspec. cbv zeta in Hspec.
  pose proof (Z.sqrt_nonneg n).
  pose proof (isqrt_bound n ltac:(unfold UINT32_MAX, U32_MOD in *; lia)).
  unfold Z.succ in Hspec. lia.
Qed.

(** X1 at 1000003, whose root is 1000. *)
Lemma isqrt_floor_sqrt_witness :
  0 <= 1000003 < UINT32_MAX
  /\ exists r : Z,
       isqrt 1000003 = Ok r
       /\ 0 <= r <= 65535
       /\ r * r <= 1000003 < (r + 1) * (r + 1).
Proof.
  assert (H : 0 <= 1000003 < UINT32_MAX) by (unfold UINT32_MAX; lia).
  split; [exact H|]. exact (isqrt_floor_sqrt 1000003 H).
Defined.

(** ** Lookup and insertion *)

Lemma check_cache_scan_app (l1 l2 : list FactorCache) (n : Z) :
  check_cache_scan (l1 ++ l2) n =
    match check_cache_scan l1 n with
    | Some fs => Some fs
    | None => check_cache_scan l2 n
    end.
Proof.
  induction l1 as [|e l1 IH]; cbn [app check_cache_scan]; [reflexivity|].
  now destruct (number e =? n).
Qed.

Lemma check_cache_scan_None (l : list FactorCache) (n : Z) :
  check_cache_scan l n = None <-> n ∉ number <$> l.
Proof.
  induction l as [|e l IH]; cbn [check_cache_scan fmap list_fmap].
  - split; [intros _ H; inversion H|reflexivity].
  - rewrite not_elem_of_cons.
    destruct (Z.eqb_spec (number e) n) as [Heq|Hne].
    + split; [discriminate|]. intros [H _]. congruence.
    + rewrite IH. split; [intros H; split; [congruence|exact H]|now intros [_ H]].
Qed.

(** The entries in use after an insertion that is not dropped. *)
Lemma add_to_cache_entries (n : Z) (fs : list Z) (st : state) :
  cache_inv st ->
  cache_size st < MAX_CACHE_SIZE ->
  Z.of_nat (length fs) < MAX_FACTORS ->
  exists e : FactorCache,
    number e = n
    /\ take (Z.to_nat (factor_count e)) (factors e) = fs
    /\ cache_size (add_to_cache n fs st) = cache_size st + 1
    /\ take (Z.to_nat (cache_size (add_to_cache n fs st)))
         (factor_cache (add_to_cache n fs st))
       = take (Z.to_nat (cache_size st)) (factor_cache st) ++ [e].
Proof.
  intros [Hsz Hlen _] Hroom Hcount. unfold add_to_cache.
  destruct (Z.geb_spec (cache_size st) MAX_CACHE_SIZE); [lia|].
  destruct (Z.geb_spec (Z.of_nat (length fs)) MAX_FACTORS); [lia|].
  cbn [orb cache_size factor_cache].
  destruct (lookup_lt_is_Some_2 (factor_cache st) (Z.to_nat (cache_size st)))
    as [e0 He0]; [unfold MAX_CACHE_SIZE in *; lia|].
  eexists. split_and!; [| |reflexivity|].
  3: { replace (Z.to_nat (cache_size st + 1)) with (S (Z.to_nat (cache_size st)))
         by lia.
       erewrite take_S_r
         by (rewrite list_lookup_alter_eq, He0; reflexivity).
       rewrite take_alter. destruct (decide _); [lia|reflexivity]. }
  - reflexivity.
  - cbn [factor_count factors].
    rewrite Z.mod_small by (unfold MAX_FACTORS in *; lia).
    unfold memcpy. rewrite Nat2Z.id, (take_ge fs (length fs)) by lia.
    apply take_app_length.
Qed.

(** X2. Insertion then lookup: in a reachable cache with room, inserting a
    sequence of fewer than [MAX_FACTORS] factors under a number that the
    cache does not hold makes [check_cache] return that sequence for that
    number. *)
Theorem check_cache_after_add (st : state) (n : Z) (fs : list Z) :
  reachable st ->
  cache_size st < MAX_CACHE_SIZE ->
  Z.of_nat (length fs) < MAX_FACTORS ->
  check_cache n st = None ->
  check_cache n (add_to_cache n fs st) = Some fs.
Proof.
  intros Hst Hroom Hcount Hmiss.
  destruct (add_to_cache_entries n fs st (reachable_cache_inv st Hst) Hroom Hcount)
    as (e & Hnum & Hfs & _ & Htake).
  unfold check_cache in *. rewrite Htake, check_cache_scan_app, Hmiss.
  cbn [check_cache_scan]. rewrite Hnum, Z.eqb_refl, Hfs. reflexivity.
Qed.

(** X2 at the cache left by [factorize(12)], inserting [5; 7] under 35. *)
Lemma check_cache_after_add_witness :
  reachable state_after_12
  /\ cache_size state_after_12 < MAX_CACHE_SIZE
  /\ Z.of_nat (length [5; 7]) < MAX_FACTORS
  /\ check_cache 35 state_after_12 = None
  /\ check_cache 35 (add_to_cache 35 [5; 7] state_after_12) = Some [5; 7].
Proof.
  assert (H1 : cache_size state_after_12 < MAX_CACHE_SIZE) by reflexivity.
  assert (H2 : Z.of_nat (length [5; 7]) < MAX_FACTORS) by reflexivity.
  assert (H3 : check_cache 35 state_after_12 = None) by reflexivity.
  split_and!; [exact reachable_after_12|exact H1|exact H2|exact H3|].
  exact (check_cache_after_add state_after_12 35 [5; 7] reachable_after_12 H1 H2 H3).
Defined.

Lemma add_to_cache_extends (n : Z) (fs : list Z) (st : state) :
  0 <= cache_size st -> cache_extends st (add_to_cache n fs st).
Proof.
  intros Hsz. unfold cache_extends, add_to_cache.
  destruct ((cache_size st >=? MAX_CACHE_SIZE)
            || (Z.of_nat (length fs) >=? MAX_FACTORS)); [split; [lia|reflexivity]|].
  cbn [cache_size factor_cache]. split; [lia|].
  rewrite take_alter. destruct (decide _); [lia|reflexivity].
Qed.

Lemma cache_extends_refl (st : state) : cache_extends st st.
Proof. split; [lia|reflexivity]. Qed.

Lemma cache_extends_trans (st1 st2 st3 : state) :
  cache_extends st1 st2 -> cache_extends st2 st3 -> cache_extends st1 st3.
Proof.
  intros [Hle12 Ht12] [Hle23 Ht23]. split; [lia|].
  assert (Hmin : (Z.to_nat (cache_size st1) `min` Z.to_nat (cache_size st2))%nat
                 = Z.to_nat (cache_size st1)) by lia.
  transitivity (take (Z.to_nat (cache_size st1))
                  (take (Z.to_nat (cache_size st2)) (factor_cache st3))).
  { now rewrite take_take, Hmin. }
  rewrite Ht23, take_take, Hmin. exact Ht12.
Qed.

(** A hit is kept by every state that keeps the entries in use. *)
Lemma cache_extends_hit (st st' : state) (m : Z) (gs : list Z) :
  cache_extends st st' ->
  check_cache m st = Some gs ->
  check_cache m st' = Some gs.
Proof.
  intros [Hle Htake] Hhit. unfold check_cache in *.
  rewrite <- (take_drop (Z.to_nat (cache_size st))
                (take (Z.to_nat (cache_size st')) (factor_cache st'))).
  rewrite take_take.
  replace (Z.to_nat (cache_size st) `min` Z.to_nat (cache_size st'))%nat
    with (Z.to_nat (cache_size st)) by lia.
  now rewrite Htake, check_cache_scan_app, Hhit.
Qed.

Lemma prime_factorize_optimized_extends (n : Z) (st st' : state) (fs : list Z) :
  0 <= cache_size st ->
  prime_factorize_optimized n st = Ok (fs, st') ->
  cache_extends st st'.
Proof.
  intros Hsz Heq.
  destruct (prime_factorize_optimized_state n st st' fs Heq) as [->| ->].
  - apply cache_extends_refl.
  - now apply add_to_cache_extends.
Qed.

Lemma lua_batch_loop_extends (xs : list Z) :
  forall (out outs : list (list Z)) (st st' : state),
    size_in_bounds st ->
    lua_batch_loop xs out st = Ok (outs, st') ->
    cache_extends st st'.
Proof.
  induction xs as [|x xs IH]; intros out outs st st' Hsz; cbn [lua_batch_loop].
  - intros [= _ <-]. apply cache_extends_refl.
  - destruct (prime_factorize_optimized x st) as [[fs st1]| |] eqn:Heq;
      cbn; [|discriminate..].
    intros Hrest. apply cache_extends_trans with st1.
    + apply (prime_factorize_optimized_extends x st st1 fs); [apply Hsz|exact Heq].
    + eapply IH; [|exact Hrest].
      exact (prime_factorize_optimized_size x st st1 fs Hsz Heq).
Qed.

Lemma precompute_loop_extends (dims : list Z) :
  forall st st' : state,
    size_in_bounds st ->
    precompute_loop dims st = Ok st' ->
    cache_extends st st'.
Proof.
  induction dims as [|d dims IH]; intros st st' Hsz; cbn [precompute_loop].
  - intros [= <-]. apply cache_extends_refl.
  - destruct (cache_size st <? MAX_CACHE_SIZE);
      [|intros [= <-]; apply cache_extends_refl].
    destruct (prime_factorize_optimized d st) as [[fs st1]| |] eqn:Heq;
      cbn; [|discriminate..].
    intros Hrest. apply cache_extends_trans with st1.
    + apply (prime_factorize_optimized_extends d st st1 fs); [apply Hsz|exact Heq].
    + apply IH; [|exact Hrest].
      exact (prime_factorize_optimized_size d st st1 fs Hsz Heq).
Qed.

(** X3. The cache is append-only between two clears: every operation other
    than [clear_cache], run from a reachable state, leaves a counter that is
    not smaller and leaves the entries in use as they were; so a number that
    was a hit stays a hit with the same sequence. *)
Theorem operations_keep_entries (st st' : state) (o : operation) :
  reachable st ->
  o <> OpClearCache ->
  run_operation o st = Ok st' ->
  cache_extends st st'
  /\ (forall (m : Z) (gs : list Z),
        check_cache m st = Some gs -> check_cache m st' = Some gs).
Proof.
  intros Hst Hclear Hrun.
  pose proof (reachable_size_in_bounds st Hst) as Hsz.
  assert (Hext : cache_extends st st').
  { destruct o as [n|xs| | |]; cbn [run_operation] in Hrun.
    - destruct (prime_factorize_optimized n st) as [[fs st1]| |] eqn:Heq;
        cbn in Hrun; [|discriminate..].
      injection Hrun as <-.
      apply (prime_factorize_optimized_extends n st st1 fs); [apply Hsz|exact Heq].
    - unfold lua_batch_prime_factorize in Hrun.
      destruct (lua_batch_loop xs [] st) as [[outs st1]| |] eqn:Heq;
        cbn in Hrun; [|discriminate..].
      injection Hrun as <-.
      exact (lua_batch_loop_extends xs [] outs st st1 Hsz Heq).
    - unfold lua_precompute_common_dimensions, precompute_common_dimensions in Hrun.
      destruct (precompute_loop common_dims st) as [st1| |] eqn:Heq;
        cbn in Hrun; [|discriminate..].
      injection Hrun as <-.
      exact (precompute_loop_extends common_dims st st1 Hsz Heq).
    - injection Hrun as <-. apply cache_extends_refl.
    - congruence. }
  split; [exact Hext|].
  intros m gs. now apply cache_extends_hit.
Qed.

(** X3 at the cache left by [factorize(12)] and the operation
    [batch_factorize] of 12, 60. *)
Lemma operations_keep_entries_witness :
  reachable state_after_12
  /\ OpBatchFactorize [12; 60] <> OpClearCache
  /\ run_operation (OpBatchFactorize [12; 60]) state_after_12
     = Ok (add_to_cache 60 [2; 2; 3; 5; 5] state_after_12)
  /\ cache_extends state_after_12 (add_to_cache 60 [2; 2; 3; 5; 5] state_after_12)
  /\ (forall (m : Z) (gs : list Z),
        check_cache m state_after_12 = Some gs ->
        check_cache m (add_to_cache 60 [2; 2; 3; 5; 5] state_after_12) = Some gs).
Proof.
  assert (H1 : OpBatchFactorize [12; 60] <> OpClearCache) by discriminate.
  assert (H2 : run_operation (OpBatchFactorize [12; 60]) state_after_12
               = Ok (add_to_cache 60 [2; 2; 3; 5; 5] state_after_12))
    by (vm_compute; reflexivity).
  split_and!; [exact reachable_after_12|exact H1|exact H2|..];
    apply (operations_keep_entries state_after_12 _ _ reachable_after_12 H1 H2).
Defined.

(** An insertion is dropped, or appends one entry to the entries in use. *)
Lemma add_to_cache_cases (n : Z) (fs : list Z) (st : state) :
  cache_inv st ->
  (add_to_cache n fs st = st
   /\ (MAX_CACHE_SIZE <= cache_size st \/ MAX_FACTORS <= Z.of_nat (length fs)))
  \/ (cache_size st < MAX_CACHE_SIZE
      /\ Z.of_nat (length fs) < MAX_FACTORS
      /\ exists e : FactorCache,
           number e = n
           /\ take (Z.to_nat (factor_count e)) (factors e) = fs
           /\ cache_size (add_to_cache n fs st) = cache_size st + 1
           /\ take (Z.to_nat (cache_size (add_to_cache n fs st)))
                (factor_cache (add_to_cache n fs st))
              = take (Z.to_nat (cache_size st)) (factor_cache st) ++ [e]).
Proof.
  intros Hinv.
  destruct (Z_lt_le_dec (cache_size st) MAX_CACHE_SIZE) as [Hroom|Hfull].
  - destruct (Z_lt_le_dec (Z.of_nat (length fs)) MAX_FACTORS) as [Hcount|Hlong].
    + right. split_and!; [exact Hroom|exact Hcount|].
      now apply add_to_cache_entries.
    + left. split; [|now right]. unfold add_to_cache.
      destruct (Z.geb_spec (Z.of_nat (length fs)) MAX_FACTORS); [|lia].
      now rewrite orb_true_r.
  - left. split; [|now left]. now apply add_to_cache_full.
Qed.

(** X4. An insertion never changes what [check_cache] answers for another
    number: for [m <> n], the lookup of [m] is the same before and after
    [add_to_cache] of [n]. *)
Theorem check_cache_other_key (st : state) (n m : Z) (fs : list Z) :
  reachable st ->
  m <> n ->
  check_cache m (add_to_cache n fs st) = check_cache m st.
Proof.
  intros Hst Hne.
  destruct (add_to_cache_cases n fs st (reachable_cache_inv st Hst))
    as [[-> _]|(_ & _ & e & Hnum & _ & _ & Htake)]; [reflexivity|].
  unfold check_cache. rewrite Htake, check_cache_scan_app.
  cbn [check_cache_scan].
  destruct (Z.eqb_spec (number e) m); [congruence|].
  now destruct (check_cache_scan _ m).
Qed.

(** X4 at the cache left by [factorize(12)]: inserting under 35 leaves the
    lookup of 12 as it was. *)
Lemma check_cache_other_key_witness :
  reachable state_after_12
  /\ 12 <> 35
  /\ check_cache 12 state_after_12 = Some [2; 2; 3; 3]
  /\ check_cache 12 (add_to_cache 35 [5; 7] state_after_12)
     = check_cache 12 state_after_12.
Proof.
  assert (H : 12 <> 35) by discriminate.
  split_and!; [exact reachable_after_12|exact H|reflexivity|].
  exact (check_cache_other_key state_after_12 35 12 [5; 7] reachable_after_12 H).
Defined.

(** The ways [prime_factorize_optimized] returns. *)
Lemma prime_factorize_optimized_cases (n : Z) (st st' : state) (fs : list Z) :
  prime_factorize_optimized n st = Ok (fs, st') ->
  (n <= 1 /\ fs = [] /\ st' = st)
  \/ (1 < n /\ check_cache n st = Some fs /\ st' = st)
  \/ (1 < n /\ check_cache n st = None /\ factorize_uncached n = Ok fs
      /\ st' = add_to_cache n fs st).
Proof.
  unfold prime_factorize_optimized.
  destruct (Z.leb_spec n 1) as [Hle|Hgt]; [intros [= <- <-]; now left|].
  destruct (check_cache n st) as [gs|] eqn:Hcc.
  - intros [= <- <-]. right. now left.
  - destruct (factorize_uncached n) as [gs| |]; cbn; [|discriminate..].
    intros [= <- <-]. right. now right.
Qed.

(** X5. Memoization: after a call of the factorizer on [n] in a reachable
    state, a second call on [n] returns the same sequence and leaves the
    cache as the first call left it. *)
Theorem factorize_twice (st st' : state) (n : Z) (fs : list Z) :
  reachable st ->
  is_u32 n ->
  prime_factorize_optimized n st = Ok (fs, st') ->
  prime_factorize_optimized n st' = Ok (fs, st').
Proof.
  intros Hst Hn Heq. pose proof (reachable_cache_inv st Hst) as Hinv.
  destruct (prime_factorize_optimized_cases n st st' fs Heq)
    as [(Hle & -> & ->)|[(Hgt & Hhit & ->)|(Hgt & Hmiss & Hfs & ->)]];
    [exact Heq|exact Heq|].
  destruct (add_to_cache_cases n fs st Hinv)
    as [[Hsame _]|(_ & _ & e & Hnum & Htk & _ & Htake)].
  - rewrite Hsame. rewrite Hsame in Heq. exact Heq.
  - unfold prime_factorize_optimized.
    destruct (Z.leb_spec n 1); [lia|].
    unfold check_cache. rewrite Htake, check_cache_scan_app.
    unfold check_cache in Hmiss. rewrite Hmiss. cbn [check_cache_scan].
    now rewrite Hnum, Z.eqb_refl, Htk.
Qed.

(** X5 at the empty cache and 60: the first call is a miss that inserts, the
    second one a hit. *)
Lemma factorize_twice_witness :
  reachable init_state
  /\ is_u32 60
  /\ prime_factorize_optimized 60 init_state
     = Ok ([2; 2; 3; 5; 5], add_to_cache 60 [2; 2; 3; 5; 5] init_state)
  /\ prime_factorize_optimized 60 (add_to_cache 60 [2; 2; 3; 5; 5] init_state)
     = Ok ([2; 2; 3; 5; 5], add_to_cache 60 [2; 2; 3; 5; 5] init_state).
Proof.
  assert (Hu : is_u32 60) by (unfold is_u32, U32_MOD; lia).
  assert (H : prime_factorize_optimized 60 init_state
              = Ok ([2; 2; 3; 5; 5], add_to_cache 60 [2; 2; 3; 5; 5] init_state))
    by (vm_compute; reflexivity).
  split_and!; [exact reachable_init|exact Hu|exact H|].
  exact (factorize_twice init_state _ 60 _ reachable_init Hu H).
Defined.

(** ** Invariants of the reachable states *)

Section ReachableInvariant.

Variable P : state -> Prop.
Hypothesis P_init : P init_state.
Hypothesis P_factorize :
  forall (n : Z) (st st' : state) (fs : list Z),
    reachable st -> is_u32 n -> P st ->
    prime_factorize_optimized n st = Ok (fs, st') -> P st'.

Lemma reachable_factorize (n : Z) (st st' : state) (fs : list Z) :
  reachable st -> is_u32 n ->
  prime_factorize_optimized n st = Ok (fs, st') -> reachable st'.
Proof.
  intros Hst Hn Heq.
  apply (reachable_step st st' (OpFactorize n) Hst Hn).
  cbn [run_operation]. now rewrite Heq.
Qed.

Lemma lua_batch_loop_invariant (xs : list Z) :
  forall (out outs : list (list Z)) (st st' : state),
    reachable st -> Forall is_u32 xs -> P st ->
    lua_batch_loop xs out st = Ok (outs, st') -> P st'.
Proof.
  induction xs as [|x xs IH]; intros out outs st st' Hst Hxs HP;
    cbn [lua_batch_loop].
  - now intros [= _ <-].
  - inversion Hxs as [|? ? Hx Hxs']; subst.
    destruct (prime_factorize_optimized x st) as [[fs st1]| |] eqn:Heq;
      cbn; [|discriminate..].
    apply IH; [|exact Hxs'|].
    + exact (reachable_factorize x st st1 fs Hst Hx Heq).
    + exact (P_factorize x st st1 fs Hst Hx HP Heq).
Qed.

Lemma precompute_loop_invariant (dims : list Z) :
  forall st st' : state,
    reachable st -> Forall is_u32 dims -> P st ->
    precompute_loop dims st = Ok st' -> P st'.
Proof.
  induction dims as [|d dims IH]; intros st st' Hst Hdims HP;
    cbn [precompute_loop].
  - now intros [= <-].
  - inversion Hdims as [|? ? Hd Hdims']; subst.
    destruct (cache_size st <? MAX_CACHE_SIZE); [|now intros [= <-]].
    destruct (prime_factorize_optimized d st) as [[fs st1]| |] eqn:Heq;
      cbn; [|discriminate..].
    apply IH; [|exact Hdims'|].
    + exact (reachable_factorize d st st1 fs Hst Hd Heq).
    + exact (P_factorize d st st1 fs Hst Hd HP Heq).
Qed.

(** What holds at process start and is kept by the factorizer holds in every
    reachable state. *)
Lemma reachable_invariant (st : state) : reachable st -> P st.
Proof.
  induction 1 as [|st st' o Hst IH Hvalid Hrun]; [exact P_init|].
  destruct o as [n|xs| | |]; cbn [run_operation valid_operation] in *.
  - destruct (prime_factorize_optimized n st) as [[fs st1]| |] eqn:Heq;
      cbn in Hrun; [|discriminate..].
    injection Hrun as <-. exact (P_factorize n st st1 fs Hst Hvalid IH Heq).
  - unfold lua_batch_prime_factorize in Hrun.
    destruct (lua_batch_loop xs [] st) as [[outs st1]| |] eqn:Heq;
      cbn in Hrun; [|discriminate..].
    injection Hrun as <-.
    exact (lua_batch_loop_invariant xs [] outs st st1 Hst Hvalid IH Heq).
  - unfold lua_precompute_common_dimensions, precompute_common_dimensions in Hrun.
    destruct (precompute_loop common_dims st) as [st1| |] eqn:Heq;
      cbn in Hrun; [|discriminate..].
    injection Hrun as <-.
    exact (precompute_loop_invariant common_dims st st1 Hst common_dims_u32 IH Heq).
  - now injection Hrun as <-.
  - now injection Hrun as <-.
Qed.

End ReachableInvariant.

(** X6. No number has two entries: in every reachable state the numbers of
    the entries in use are pairwise distinct, a miss being the only way to an
    insertion. *)
Theorem cache_keys_distinct (st : state) : reachable st -> NoDup (cache_keys st).
Proof.
  revert st. apply (reachable_invariant (fun st => NoDup (cache_keys st))).
  - unfold cache_keys. cbn. constructor.
  - intros n st st' fs Hst Hn HP Heq.
    destruct (prime_factorize_optimized_cases n st st' fs Heq)
      as [(_ & _ & ->)|[(_ & _ & ->)|(Hgt & Hmiss & _ & ->)]]; [exact HP..|].
    destruct (add_to_cache_cases n fs st (reachable_cache_inv st Hst))
      as [[-> _]|(_ & _ & e & Hnum & _ & _ & Htake)]; [exact HP|].
    unfold cache_keys in *. rewrite Htake, fmap_app. cbn [fmap list_fmap].
    rewrite Hnum. apply list.NoDup_app. split_and!.
    + exact HP.
    + intros x Hx Hx'. apply list_elem_of_singleton in Hx'. subst x.
      unfold check_cache in Hmiss. now apply check_cache_scan_None in Hmiss.
    + apply NoDup_singleton.
Qed.

(** X6 at the cache filled to capacity. *)
Lemma cache_keys_distinct_witness :
  reachable full_state /\ NoDup (cache_keys full_state).
Proof.
  split; [exact reachable_full|].
  exact (cache_keys_distinct full_state reachable_full).
Defined.

(** ** Precomputation *)

(** With room in the cache, a number from 2 on is a hit once it has been
    factored. *)
Lemma factorize_then_hit (n : Z) (st st' : state) (fs : list Z) :
  reachable st ->
  is_u32 n ->
  1 < n ->
  cache_size st < MAX_CACHE_SIZE ->
  prime_factorize_optimized n st = Ok (fs, st') ->
  check_cache n st' = Some fs.
Proof.
  intros Hst Hn Hgt Hroom Heq.
  destruct (prime_factorize_optimized_cases n st st' fs Heq)
    as [(Hle & _)|[(_ & Hhit & ->)|(_ & Hmiss & Hfs & ->)]];
    [lia|exact Hhit|].
  destruct (factorize_uncached_spec n ltac:(unfold is_u32 in Hn; lia))
    as (fs0 & Hfs0 & Hpost).
  assert (fs0 = fs) as -> by congruence.
  pose proof (uncached_post_length n fs ltac:(apply Hn) Hpost) as Hlen.
  destruct (add_to_cache_cases n fs st (reachable_cache_inv st Hst))
    as [[_ [Hfull|Hlong]]|(_ & _ & e & Hnum & Htk & _ & Htake)];
    [lia|unfold MAX_FACTORS in Hlong; lia|].
  unfold check_cache in *. rewrite Htake, check_cache_scan_app, Hmiss.
  cbn [check_cache_scan]. now rewrite Hnum, Z.eqb_refl, Htk.
Qed.

Lemma precompute_loop_hits (dims : list Z) :
  forall st : state,
    reachable st ->
    Forall is_u32 dims ->
    exists st' : state,
      precompute_loop dims st = Ok st'
      /\ reachable st'
      /\ (MAX_CACHE_SIZE <= cache_size st'
          \/ forall d : Z, d ∈ dims -> 1 < d -> is_Some (check_cache d st')).
Proof.
  induction dims as [|d dims IH]; intros st Hst Hdims.
  - exists st. split_and!; [reflexivity|exact Hst|].
    right. intros d Hd. inversion Hd.
  - inversion Hdims as [|? ? Hd Hdims']; subst. cbn [precompute_loop].
    destruct (Z.ltb_spec (cache_size st) MAX_CACHE_SIZE) as [Hroom|Hfull];
      [|exists st; split_and!; [reflexivity|exact Hst|now left]].
    destruct (prime_factorize_optimized_spec d st (reachable_cache_inv st Hst) Hd)
      as (fs & st1 & Heq & _).
    pose proof (reachable_factorize d st st1 fs Hst Hd Heq) as Hst1.
    destruct (IH st1 Hst1 Hdims') as (st' & Hloop & Hst' & Hpost).
    rewrite Heq, bind_ok. cbv beta iota.
    exists st'. split_and!; [exact Hloop|exact Hst'|].
    destruct Hpost as [Hfull|Hhits]; [now left|right].
    intros x Hx Hgt. apply elem_of_cons in Hx as [->|Hx]; [|now apply Hhits].
    exists fs.
    apply (cache_extends_hit st1 st').
    + apply (precompute_loop_extends dims st1 st');
        [exact (reachable_size_in_bounds st1 Hst1)|exact Hloop].
    + exact (factorize_then_hit d st st1 fs Hst Hd Hgt Hroom Heq).
Qed.

(** X7. From every reachable state [precompute_common_dimensions] returns,
    and afterwards the cache is at capacity or every value of the table above
    1 is a hit, with the sequence a fresh computation returns for it. *)
Theorem precompute_warms_cache (st : state) :
  reachable st ->
  exists st' : state,
    precompute_common_dimensions st = Ok st'
    /\ (cache_size st' = MAX_CACHE_SIZE
        \/ forall d : Z,
             d ∈ common_dims -> 1 < d ->
             exists fs : list Z,
               check_cache d st' = Some fs
               /\ returned (prime_factorize_optimized d init_state) = Ok fs).
Proof.
  intros Hst.
  destruct (precompute_loop_hits common_dims st Hst common_dims_u32)
    as (st' & Hloop & Hst' & Hpost).
  exists st'. split; [exact Hloop|].
  pose proof (reachable_size_in_bounds st' Hst') as Hsz.
  destruct Hpost as [Hfull|Hhits]; [left; unfold size_in_bounds in Hsz; lia|right].
  intros d Hd Hgt. destruct (Hhits d Hd Hgt) as [fs Hfs].
  exists fs. split; [exact Hfs|].
  rewrite returned_fresh by lia.
  now apply (check_cache_hit st' d fs (reachable_cache_inv st' Hst')).
Qed.

(** X7 at process start, as when the module is loaded. *)
Lemma precompute_warms_cache_witness :
  reachable init_state
  /\ exists st' : state,
       precompute_common_dimensions init_state = Ok st'
       /\ (cache_size st' = MAX_CACHE_SIZE
           \/ forall d : Z,
                d ∈ common_dims -> 1 < d ->
                exists fs : list Z,
                  check_cache d st' = Some fs
                  /\ returned (prime_factorize_optimized d init_state) = Ok fs).
Proof.
  split; [exact reachable_init|].
  exact (precompute_warms_cache init_state reachable_init).
Defined.

(** A loop over values that are all answered without an insertion leaves the
    cache as it is. *)
Lemma precompute_loop_fixed (dims : list Z) (st : state) :
  (MAX_CACHE_SIZE <= cache_size st
   \/ forall d : Z, d ∈ dims -> 1 < d -> is_Some (check_cache d st)) ->
  precompute_loop dims st = Ok st.
Proof.
  induction dims as [|d dims IH]; intros Hpost; [reflexivity|].
  cbn [precompute_loop].
  destruct (Z.ltb_spec (cache_size st) MAX_CACHE_SIZE) as [Hroom|Hfull];
    [|reflexivity].
  destruct Hpost as [Hfull|Hhits]; [lia|].
  assert (Hd : exists fs, prime_factorize_optimized d st = Ok (fs, st)).
  { unfold prime_factorize_optimized.
    destruct (Z.leb_spec d 1) as [Hle|Hgt]; [now exists []|].
    destruct (Hhits d ltac:(left) Hgt) as [fs ->]. now exists fs. }
  destruct Hd as [fs ->]. rewrite bind_ok. cbv beta iota.
  apply IH. right. intros x Hx. apply Hhits. now right.
Qed.

(** X8. Precomputation is idempotent: run again on the cache a first run
    left, [precompute_common_dimensions] changes nothing. *)
Theorem precompute_twice (st st' : state) :
  reachable st ->
  precompute_common_dimensions st = Ok st' ->
  precompute_common_dimensions st' = Ok st'.
Proof.
  intros Hst Hrun.
  destruct (precompute_loop_hits common_dims st Hst common_dims_u32)
    as (st1 & Hloop & _ & Hpost).
  unfold precompute_common_dimensions in *.
  assert (st1 = st') as -> by congruence.
  now apply precompute_loop_fixed.
Qed.

(** X8 at the cache left by [factorize(12)]. *)
Lemma precompute_twice_witness :
  reachable state_after_12
  /\ exists st' : state,
       precompute_common_dimensions state_after_12 = Ok st'
       /\ precompute_common_dimensions st' = Ok st'.
Proof.
  split; [exact reachable_after_12|].
  destruct (precompute_loop_hits common_dims state_after_12
              reachable_after_12 common_dims_u32) as (st' & Hrun & _).
  exists st'. split; [exact Hrun|].
  exact (precompute_twice state_after_12 st' reachable_after_12 Hrun).
Defined.

(** ** Batches *)

Lemma lua_batch_loop_acc (xs : list Z) :
  forall (out : list (list Z)) (st : state),
    lua_batch_loop xs out st
    = ('(outs, st') ← lua_batch_loop xs [] st; Ok (out ++ outs, st')).
Proof.
  induction xs as [|x xs IH]; intros out st; cbn [lua_batch_loop].
  - rewrite bind_ok. cbv beta iota. now rewrite app_nil_r.
  - destruct (prime_factorize_optimized x st) as [[fs st1]| |]; [|reflexivity..].
    rewrite !bind_ok. cbv beta iota.
    rewrite (IH (out ++ [fs])), (IH ([] ++ [fs])).
    destruct (lua_batch_loop xs [] st1) as [[outs st']| |]; [|reflexivity..].
    rewrite !bind_ok. cbv beta iota. now rewrite <- !app_assoc.
Qed.

Lemma lua_batch_loop_app (xs ys : list Z) :
  forall (out : list (list Z)) (st : state),
    lua_batch_loop (xs ++ ys) out st
    = ('(out1, st1) ← lua_batch_loop xs out st; lua_batch_loop ys out1 st1).
Proof.
  induction xs as [|x xs IH]; intros out st; cbn [app lua_batch_loop].
  - now rewrite bind_ok.
  - destruct (prime_factorize_optimized x st) as [[fs st1]| |]; [|reflexivity..].
    rewrite !bind_ok. cbv beta iota. apply IH.
Qed.

(** X9. A batch over a concatenation is the batch over the first part
    followed, in the cache this one leaves, by the batch over the second
    part, the outputs being concatenated; this in every cache state and
    whatever the first batch does. *)
Theorem batch_factorize_app (xs ys : list Z) (st : state) :
  lua_batch_prime_factorize (xs ++ ys) st
  = ('(outs1, st1) ← lua_batch_prime_factorize xs st;
     '(outs2, st2) ← lua_batch_prime_factorize ys st1;
     Ok (outs1 ++ outs2, st2)).
Proof.
  unfold lua_batch_prime_factorize. rewrite lua_batch_loop_app.
  destruct (lua_batch_loop xs [] st) as [[outs1 st1]| |]; [|reflexivity..].
  rewrite !bind_ok. cbv beta iota. apply lua_batch_loop_acc.
Qed.

(** ** The factors are primes *)

Lemma no_divisor_below_prime (c n : Z) :
  0 <= c -> 1 < n -> no_divisor_below c n -> n < c * c -> Z.prime n.
Proof.
  intros Hc Hn Hdiv Hsq. split; [exact Hn|].
  intros d Hd [e He].
  destruct (Z_lt_le_dec d c) as [Hlt|Hge].
  - apply (Hdiv d); [lia|]. apply Z.mod_divide; [lia|]. now exists e.
  - assert (0 < e) by nia.
    assert (1 < e) by nia.
    assert (e < c) by nia.
    apply (Hdiv e); [lia|]. apply Z.mod_divide; [lia|]. exists d. lia.
Qed.

Lemma dividing_candidate_prime (p n : Z) :
  2 <= p -> no_divisor_below p n -> n mod p = 0 -> Z.prime p.
Proof.
  intros Hp Hdiv Hmod. split; [lia|].
  intros d Hd Hdp. apply (Hdiv d); [lia|].
  apply Z.mod_divide; [lia|].
  apply Z.divide_trans with p; [exact Hdp|].
  apply Z.mod_divide; [lia|exact Hmod].
Qed.

Lemma sqrt_lt_square (n c : Z) : 0 <= n -> Z.sqrt n < c -> n < c * c.
Proof.
  intros Hn Hc. pose proof (Z.sqrt_spec n Hn) as [_ Hhi].
  pose proof (Z.sqrt_nonneg n). unfold Z.succ in Hhi. nia.
Qed.

Section DivideOutPrimes.

Variable p : Z.
Hypothesis p_ge_2 : 2 <= p.

Lemma quotient_no_divisor_below (n : Z) :
  1 <= n -> no_divisor_below p n -> n mod p = 0 ->
  1 <= n / p /\ no_divisor_below p (n / p).
Proof.
  intros Hn Hdiv Hmod.
  assert (Hnq : n = p * (n / p)) by (apply Z.div_exact; lia).
  split; [nia|].
  apply no_divisor_below_quotient with n; [|exact Hdiv]. exists p. lia.
Qed.

Lemma divide_out_primes (fuel : nat) :
  forall (n n' : Z) (fs fs' : list Z),
    1 <= n ->
    no_divisor_below p n ->
    Forall Z.prime fs ->
    divide_out fuel p n fs = Ok (n', fs') ->
    Forall Z.prime fs'.
Proof.
  induction fuel as [|fuel IH]; intros n n' fs fs' Hn Hdiv Hfs;
    cbn [divide_out]; rewrite umod_ok, bind_ok by lia;
    destruct (Z.eqb_spec (n mod p) 0) as [Hmod|Hmod];
    try discriminate; try (now intros [= _ <-]).
  rewrite udiv_ok, bind_ok by lia.
  destruct (quotient_no_divisor_below n Hn Hdiv Hmod) as [Hq Hdivq].
  apply IH; [exact Hq|exact Hdivq|].
  apply Forall_app. split; [exact Hfs|].
  apply Forall_singleton. exact (dividing_candidate_prime p n p_ge_2 Hdiv Hmod).
Qed.

Lemma divide_out_sqrt_primes (fuel : nat) :
  forall (n n' sqrt_n sqrt_n' : Z) (fs fs' : list Z),
    1 <= n ->
    no_divisor_below p n ->
    Forall Z.prime fs ->
    divide_out_sqrt fuel p n fs sqrt_n = Ok (n', fs', sqrt_n') ->
    Forall Z.prime fs'.
Proof.
  induction fuel as [|fuel IH]; intros n n' sqrt_n sqrt_n' fs fs' Hn Hdiv Hfs;
    cbn [divide_out_sqrt]; rewrite umod_ok, bind_ok by lia;
    destruct (Z.eqb_spec (n mod p) 0) as [Hmod|Hmod];
    try discriminate; try (now intros [= _ <- _]).
  rewrite udiv_ok, bind_ok by lia.
  destruct (quotient_no_divisor_below n Hn Hdiv Hmod) as [Hq Hdivq].
  destruct (isqrt (n / p)) as [s| |]; cbn; [|discriminate..].
  apply IH; [exact Hq|exact Hdivq|].
  apply Forall_app. split; [exact Hfs|].
  apply Forall_singleton. exact (dividing_candidate_prime p n p_ge_2 Hdiv Hmod).
Qed.

End DivideOutPrimes.

Lemma small_prime_loop_primes (N : Z) (ps : list Z) :
  forall (c n n' : Z) (fs fs' : list Z),
    primes_chain c ps = true ->
    2 <= c ->
    Forall (fun p => p <= 71) ps ->
    loop_inv N c n fs ->
    no_divisor_below c n ->
    n < U32_MOD ->
    Forall Z.prime fs ->
    small_prime_loop ps n fs = Ok (n', fs') ->
    Forall Z.prime fs'.
Proof.
  induction ps as [|p ps IH];
    intros c n n' fs fs' Hchain Hc Hps Hinv Hdiv Hn Hfs.
  - cbn [small_prime_loop]. now intros [= _ <-].
  - cbn [primes_chain] in Hchain.
    apply andb_prop in Hchain as [Hchain Hrest].
    apply andb_prop in Hchain as [Hcp Hgap]. apply Z.leb_le in Hcp.
    inversion Hps as [|? ? Hp71 Hps']; subst.
    assert (Hdivp : no_divisor_below p n).
    { apply no_divisor_below_skip with c; [exact Hdiv|].
      intros d Hd. now apply gap_covered_spec with p. }
    destruct (divide_out_spec N p ltac:(lia) DIVIDE_FUEL n fs)
      as (n1 & fs1 & Heq & Hinv1 & Hdiv1 & Hle1).
    { apply loop_inv_weaken with c; [lia|exact Hinv]. }
    { exact Hdivp. }
    { unfold U32_MOD in Hn. exact Hn. }
    pose proof (inv_cofactor _ _ _ _ Hinv) as Hn0.
    pose proof (inv_cofactor _ _ _ _ Hinv1) as Hn1.
    pose proof (divide_out_primes p ltac:(lia) DIVIDE_FUEL n n1 fs fs1
                  Hn0 Hdivp Hfs Heq) as Hfs1.
    cbn [small_prime_loop]. rewrite Heq, bind_ok. cbv beta iota.
    destruct (Z.eqb_spec n1 1) as [->|Hne]; [now intros [= _ <-]|].
    rewrite u32_small by (unfold U32_MOD; nia).
    destruct (Z.gtb_spec (p * p) n1) as [Hsq|Hsq].
    + destruct (Z.gtb_spec n1 1) as [_|]; [|lia].
      intros [= _ <-]. apply Forall_app. split; [exact Hfs1|].
      apply Forall_singleton.
      apply (no_divisor_below_prime (p + 1) n1); [lia|lia|exact Hdiv1|nia].
    + apply (IH (p + 1)); try assumption; lia.
Qed.

Lemma odd_candidate_loop_primes (N : Z) (fuel : nat) :
  forall (c n n' : Z) (fs fs' : list Z),
    loop_inv N c n fs ->
    no_divisor_below c n ->
    3 <= c ->
    c mod 2 = 1 ->
    n < U32_MOD ->
    Forall Z.prime fs ->
    odd_candidate_loop fuel c n fs (Z.sqrt n) = Ok (n', fs') ->
    Forall Z.prime fs'
    /\ 1 <= n'
    /\ exists c' : Z, 3 <= c' /\ no_divisor_below c' n' /\ Z.sqrt n' < c'.
Proof.
  assert (Hstop : forall (c n n' : Z) (fs fs' : list Z),
             1 <= n -> 3 <= c -> no_divisor_below c n -> Forall Z.prime fs ->
             Z.sqrt n < c ->
             Ok (n, fs) = Ok (n', fs') ->
             Forall Z.prime fs'
             /\ 1 <= n'
             /\ exists c' : Z,
                  3 <= c' /\ no_divisor_below c' n' /\ Z.sqrt n' < c').
  { intros c n n' fs fs' Hn Hc Hdiv Hfs Hgt [= <- <-].
    split_and!; [exact Hfs|exact Hn|]. now exists c. }
  induction fuel as [|fuel IH]; intros c n n' fs fs' Hinv Hdiv Hc Hodd Hn Hfs;
    pose proof (inv_cofactor _ _ _ _ Hinv) as Hn0;
    pose proof (isqrt_bound n ltac:(lia)) as Hs;
    cbn [odd_candidate_loop];
    destruct (Z.leb_spec c (Z.sqrt n)) as [Hle|Hgt].
  - intros [=].
  - now apply (Hstop c).
  - destruct (divide_out_sqrt_spec N c ltac:(lia) DIVIDE_FUEL n fs (Z.sqrt n))
      as (n1 & fs1 & Heq & Hinv1 & Hdiv1 & Hle1).
    { apply loop_inv_weaken with c; [lia|exact Hinv]. }
    { exact Hdiv. }
    { unfold U32_MOD in Hn. exact Hn. }
    { exact Hn. }
    { reflexivity. }
    pose proof (divide_out_sqrt_primes c ltac:(lia) DIVIDE_FUEL n n1 _ _ fs fs1
                  Hn0 Hdiv Hfs Heq) as Hfs1.
    rewrite Heq, bind_ok. cbv beta iota.
    rewrite u32_small by (unfold U32_MOD; lia).
    apply IH.
    + apply loop_inv_weaken with (c + 1); [lia|exact Hinv1].
    + apply no_divisor_below_skip with (c + 1); [exact Hdiv1|].
      intros d Hd. assert (d = c + 1) as -> by lia.
      exists 2. split; [lia|].
      rewrite Z.add_mod, Hodd by lia. reflexivity.
    + lia.
    + rewrite Z.add_mod, Hodd by lia. reflexivity.
    + lia.
    + exact Hfs1.
  - now apply (Hstop c).
Qed.

Lemma final_cofactor_primes (c n : Z) (fs : list Z) :
  0 <= c -> 1 <= n -> no_divisor_below c n -> n < c * c -> Forall Z.prime fs ->
  Forall Z.prime (if n >? 1 then fs ++ [n] else fs).
Proof.
  intros Hc Hn Hdiv Hsq Hfs.
  destruct (Z.gtb_spec n 1) as [Hgt|]; [|exact Hfs].
  apply Forall_app. split; [exact Hfs|]. apply Forall_singleton.
  apply (no_divisor_below_prime c n); [exact Hc|lia|exact Hdiv|exact Hsq].
Qed.

(** Every number a cache miss writes is a prime. *)
Lemma factorize_uncached_primes (N : Z) (fs : list Z) :
  2 <= N < U32_MOD ->
  factorize_uncached N = Ok fs ->
  Forall Z.prime fs.
Proof.
  intros HN. rewrite factorize_uncached_eq.
  assert (Hinv0 : loop_inv N 2 N []).
  { split; [lia|unfold product; cbn; lia|apply non_decreasing_nil|constructor]. }
  assert (Hdiv0 : no_divisor_below 2 N) by (intros d Hd; lia).
  assert (H71 : Forall (fun p => p <= 71) small_primes)
    by (unfold small_primes; repeat constructor; lia).
  destruct (small_prime_loop_spec N small_primes 2 N [] small_primes_chain
              ltac:(lia) H71 Hinv0 Hdiv0 ltac:(lia))
    as (n1 & fs1 & Heq & Hle & Hpost).
  pose proof (small_prime_loop_primes N small_primes 2 N n1 [] fs1
                small_primes_chain ltac:(lia) H71 Hinv0 Hdiv0 ltac:(lia)
                ltac:(constructor) Heq) as Hfs1.
  rewrite Heq, bind_ok. cbv beta iota.
  change (chain_end 2 small_primes) with 72 in Hpost.
  destruct Hpost as [[Hinv Hdiv]|(fs0 & -> & Hinv & Hn1)].
  - pose proof (inv_cofactor _ _ _ _ Hinv) as Hn1.
    destruct (Z.gtb_spec n1 1) as [Hgt|Hgt]; [|now intros [= <-]].
    destruct (Z.leb_spec 5041 n1) as [Hbig|Hsmall].
    + assert (Hn1max : n1 < UINT32_MAX).
      { assert (n1 <> UINT32_MAX); [|unfold UINT32_MAX, U32_MOD in *; lia].
        intros ->. apply (Hdiv 3); [lia|reflexivity]. }
      rewrite isqrt_spec, bind_ok by lia.
      destruct (odd_candidate_loop CANDIDATE_FUEL 73 n1 fs1 (Z.sqrt n1))
        as [[n2 fs2]| |] eqn:Heq2; cbn; [|discriminate..].
      destruct (odd_candidate_loop_primes N CANDIDATE_FUEL 73 n1 n2 fs1 fs2)
        as (Hfs2 & Hn2 & c' & Hc' & Hdiv2 & Hsq2); try assumption; try lia.
      { apply loop_inv_weaken with 72; [lia|exact Hinv]. }
      { apply no_divisor_below_skip with 72; [exact Hdiv|].
        intros d Hd. assert (d = 72) as -> by lia.
        exists 2. split; [lia|reflexivity]. }
      { reflexivity. }
      intros [= <-].
      apply (final_cofactor_primes c'); try assumption; [lia|].
      apply sqrt_lt_square; lia.
    + rewrite bind_ok. cbv beta iota. intros [= <-].
      apply (final_cofactor_primes 72); try assumption; lia.
  - destruct (Z.gtb_spec n1 1) as [_|]; [|lia].
    destruct (Z.leb_spec 5041 n1) as [|_]; [lia|].
    rewrite bind_ok. cbv beta iota.
    destruct (Z.gtb_spec n1 1) as [_|]; [|lia].
    intros [= <-]. apply Forall_app. split; [exact Hfs1|].
    apply Forall_app in Hfs1 as [_ Hlast]. exact Hlast.
Qed.

Lemma non_decreasing_prefix (fs : list Z) (x : Z) :
  non_decreasing (fs ++ [x]) -> non_decreasing fs.
Proof.
  intros H i a b Ha Hb. apply (H i a b); now apply lookup_app_l_Some.
Qed.

(** X10. For every 32-bit [n] from 2 on and in every reachable state, the
    factorizer returns the prime factorization of [n] (primes in
    non-decreasing order whose product is [n]), either as it is or followed
    by a second copy of its last element. *)
Theorem factorize_prime_factors (st : state) (n : Z) :
  reachable st ->
  is_u32 n ->
  1 < n ->
  exists (fs : list Z) (st' : state) (fs0 : list Z),
    prime_factorize_optimized n st = Ok (fs, st')
    /\ Forall Z.prime fs0
    /\ non_decreasing fs0
    /\ product fs0 = n
    /\ (fs = fs0 \/ exists m : Z, list.last fs0 = Some m /\ fs = fs0 ++ [m]).
Proof.
  intros Hst Hn Hgt.
  destruct (prime_factorize_optimized_spec n st (reachable_cache_inv st Hst) Hn)
    as (fs & st' & Heq & _ & Hfresh & Hpost).
  rewrite returned_fresh in Hfresh by lia.
  pose proof (factorize_uncached_primes n fs ltac:(unfold is_u32 in Hn; lia) Hfresh)
    as Hprimes.
  destruct (Hpost Hgt) as (Hsorted & _ & [Hprod|(fs0 & m & -> & Hprod & _)]).
  - exists fs, st', fs. split_and!; try assumption. now left.
  - exists (fs0 ++ [m; m]), st', (fs0 ++ [m]).
    replace (fs0 ++ [m; m]) with ((fs0 ++ [m]) ++ [m]) in *
      by now rewrite <- app_assoc.
    split_and!; [exact Heq| | |exact Hprod|].
    + now apply Forall_app in Hprimes as [H _].
    + now apply non_decreasing_prefix in Hsorted.
    + right. exists m. split; [apply last_snoc|reflexivity].
Qed.

(** X10 at the cache left by [factorize(12)] and 9240, returned as
    [2; 2; 2; 3; 5; 7; 11; 11]. *)
Lemma factorize_prime_factors_witness :
  reachable state_after_12
  /\ is_u32 9240
  /\ 1 < 9240
  /\ exists (fs : list Z) (st' : state) (fs0 : list Z),
       prime_factorize_optimized 9240 state_after_12 = Ok (fs, st')
       /\ Forall Z.prime fs0
       /\ non_decreasing fs0
       /\ product fs0 = 9240
       /\ (fs = fs0 \/ exists m : Z, list.last fs0 = Some m /\ fs = fs0 ++ [m]).
Proof.
  assert (Hu : is_u32 9240) by (unfold is_u32, U32_MOD; lia).
  assert (Hgt : 1 < 9240) by lia.
  split_and!; [exact reachable_after_12|exact Hu|exact Hgt|].
  exact (factorize_prime_factors state_after_12 9240 reachable_after_12 Hu Hgt).
Defined.

(** ** [wheel_factorize] *)

Lemma wheel_increment (pos : Z) :
  0 <= pos < wheel_size -> 4 <= nth (Z.to_nat pos) wheel 0 <= 24.
Proof.
  unfold wheel_size. intros Hpos.
  assert (H : pos = 0 \/ pos = 1 \/ pos = 2 \/ pos = 3
              \/ pos = 4 \/ pos = 5 \/ pos = 6 \/ pos = 7) by lia.
  clear Hpos.
  repeat destruct H as [->|H]; try subst pos; vm_compute; split; discriminate.
Qed.

Section DivideOutProduct.

Variable p : Z.
Hypothesis p_ge_2 : 2 <= p.

Lemma divide_out_product (fuel : nat) :
  forall (n : Z) (fs : list Z),
    1 <= n < 2 ^ Z.of_nat fuel ->
    Forall (fun f => 2 <= f) fs ->
    exists (n' : Z) (fs' : list Z),
      divide_out fuel p n fs = Ok (n', fs')
      /\ product fs' * n' = product fs * n
      /\ 1 <= n' <= n
      /\ n' mod p <> 0
      /\ Forall (fun f => 2 <= f) fs'.
Proof.
  induction fuel as [|fuel IH]; intros n fs Hn Hfs.
  - change (2 ^ Z.of_nat 0) with 1 in Hn. lia.
  - cbn [divide_out]. rewrite umod_ok, bind_ok by lia.
    destruct (Z.eqb_spec (n mod p) 0) as [Hmod|Hmod].
    + rewrite udiv_ok, bind_ok by lia.
      assert (Hnq : n = p * (n / p)) by (apply Z.div_exact; lia).
      rewrite Nat2Z.inj_succ, Z.pow_succ_r in Hn by lia.
      destruct (IH (n / p) (fs ++ [p])) as (n' & fs' & Heq & Hprod & Hle & Hnd & Hge).
      * nia.
      * apply Forall_app. split; [exact Hfs|]. now apply Forall_singleton.
      * exists n', fs'. rewrite product_snoc in Hprod.
        split_and!; [exact Heq|nia|lia|nia|exact Hnd|exact Hge].
    + exists n, fs. split_and!; [reflexivity|reflexivity|lia|lia|exact Hmod|exact Hfs].
Qed.

Lemma divide_out_sqrt_product (fuel : nat) :
  forall (n sqrt_n : Z) (fs : list Z),
    1 <= n < 2 ^ Z.of_nat fuel ->
    n < U32_MOD ->
    sqrt_n = Z.sqrt n ->
    Forall (fun f => 2 <= f) fs ->
    exists (n' : Z) (fs' : list Z),
      divide_out_sqrt fuel p n fs sqrt_n = Ok (n', fs', Z.sqrt n')
      /\ product fs' * n' = product fs * n
      /\ 1 <= n' <= n
      /\ Forall (fun f => 2 <= f) fs'.
Proof.
  induction fuel as [|fuel IH]; intros n sqrt_n fs Hn Hu Hs Hfs.
  - change (2 ^ Z.of_nat 0) with 1 in Hn. lia.
  - cbn [divide_out_sqrt]. rewrite umod_ok, bind_ok by lia.
    destruct (Z.eqb_spec (n mod p) 0) as [Hmod|Hmod].
    + rewrite udiv_ok, bind_ok by lia.
      assert (Hnq : n = p * (n / p)) by (apply Z.div_exact; lia).
      rewrite Nat2Z.inj_succ, Z.pow_succ_r in Hn by lia.
      rewrite isqrt_spec, bind_ok by (unfold UINT32_MAX, U32_MOD in *; nia).
      destruct (IH (n / p) (Z.sqrt (n / p)) (fs ++ [p]))
        as (n' & fs' & Heq & Hprod & Hle & Hge).
      * nia.
      * nia.
      * reflexivity.
      * apply Forall_app. split; [exact Hfs|]. now apply Forall_singleton.
      * exists n', fs'. rewrite product_snoc in Hprod.
        split_and!; [exact Heq|nia|lia|nia|exact Hge].
    + exists n, fs. subst sqrt_n.
      split_and!; [reflexivity|reflexivity|lia|lia|exact Hfs].
Qed.

End DivideOutProduct.

Lemma wheel_loop_product (fuel : nat) :
  forall (c pos n : Z) (fs : list Z),
    7 <= c ->
    0 <= pos < wheel_size ->
    1 <= n < U32_MOD ->
    65536 - c <= 4 * Z.of_nat fuel ->
    Forall (fun f => 2 <= f) fs ->
    exists (n' : Z) (fs' : list Z),
      wheel_loop fuel c pos n fs (Z.sqrt n) = Ok (n', fs')
      /\ product fs' * n' = product fs * n
      /\ 1 <= n'
      /\ Forall (fun f => 2 <= f) fs'.
Proof.
  induction fuel as [|fuel IH]; intros c pos n fs Hc Hpos Hn Hfuel Hfs;
    pose proof (isqrt_bound n ltac:(lia)) as Hs;
    cbn [wheel_loop];
    destruct (Z.leb_spec c (Z.sqrt n)) as [Hle|Hgt].
  - lia.
  - exists n, fs. split_and!; [reflexivity|reflexivity|lia|exact Hfs].
  - destruct (divide_out_sqrt_product c ltac:(lia) DIVIDE_FUEL n (Z.sqrt n) fs)
      as (n1 & fs1 & Heq & Hprod & Hle1 & Hge1).
    { unfold U32_MOD in Hn. exact Hn. }
    { lia. }
    { reflexivity. }
    { exact Hfs. }
    rewrite Heq, bind_ok. cbv beta iota zeta.
    pose proof (wheel_increment pos Hpos) as Hinc.
    rewrite u32_small by (unfold U32_MOD; lia).
    destruct (IH (c + nth (Z.to_nat pos) wheel 0) ((pos + 1) mod wheel_size) n1 fs1)
      as (n' & fs' & Heq' & Hprod' & Hn' & Hge').
    + lia.
    + apply Z.mod_pos_bound. unfold wheel_size. lia.
    + lia.
    + lia.
    + exact Hge1.
    + exists n', fs'. split_and!; [exact Heq'|lia|exact Hn'|exact Hge'].
  - exists n, fs. split_and!; [reflexivity|reflexivity|lia|exact Hfs].
Qed.

(** X11. For every 32-bit [n], [wheel_factorize] returns; the sequence is
    empty for [n <= 1] and otherwise made of numbers from 2 on whose product
    is [n]. *)
Theorem wheel_factorize_product (n : Z) :
  is_u32 n ->
  exists fs : list Z,
    wheel_factorize n = Ok fs
    /\ Forall (fun f => 2 <= f) fs
    /\ (n <= 1 -> fs = [])
    /\ (1 < n -> product fs = n).
Proof.
  intros Hn. unfold wheel_factorize.
  destruct (Z.leb_spec n 1) as [Hle|Hgt].
  { exists []. split_and!; [reflexivity|constructor|reflexivity|lia]. }
  assert (Hfuel : forall m, m < U32_MOD -> m < 2 ^ Z.of_nat DIVIDE_FUEL)
    by (intros m Hm; exact Hm).
  destruct (divide_out_product 2 ltac:(lia) DIVIDE_FUEL n [])
    as (n1 & fs1 & Heq1 & Hprod1 & Hle1 & _ & Hge1);
    [split; [lia|apply Hfuel, Hn]|constructor|].
  destruct (divide_out_product 3 ltac:(lia) DIVIDE_FUEL n1 fs1)
    as (n2 & fs2 & Heq2 & Hprod2 & Hle2 & Hnd2 & Hge2);
    [split; [lia|apply Hfuel; unfold is_u32 in Hn; lia]|exact Hge1|].
  destruct (divide_out_product 5 ltac:(lia) DIVIDE_FUEL n2 fs2)
    as (n3 & fs3 & Heq3 & Hprod3 & Hle3 & _ & Hge3);
    [split; [lia|apply Hfuel; unfold is_u32 in Hn; lia]|exact Hge2|].
  rewrite Heq1, bind_ok. cbv beta iota.
  rewrite Heq2, bind_ok. cbv beta iota.
  rewrite Heq3, bind_ok. cbv beta iota.
  assert (Hall : product fs3 * n3 = n)
    by (unfold product in Hprod1 at 2; cbn in Hprod1; lia).
  destruct (Z.leb_spec n3 1) as [Hone|Hmore].
  { exists fs3. split_and!; [reflexivity|exact Hge3|lia|]. intros _. nia. }
  assert (Hn3 : n3 < UINT32_MAX).
  { assert (n3 <> UINT32_MAX);
      [|unfold UINT32_MAX, is_u32, U32_MOD in *; lia].
    intros ->. apply Hnd2.
    assert (n2 = UINT32_MAX) as ->
      by (unfold UINT32_MAX, is_u32, U32_MOD in *; lia).
    reflexivity. }
  rewrite isqrt_spec, bind_ok by lia.
  destruct (wheel_loop_product CANDIDATE_FUEL 7 0 n3 fs3)
    as (n4 & fs4 & Heq4 & Hprod4 & Hn4 & Hge4).
  { lia. }
  { unfold wheel_size. lia. }
  { unfold UINT32_MAX, U32_MOD in *. lia. }
  { unfold CANDIDATE_FUEL. rewrite Z2Nat.id; lia. }
  { exact Hge3. }
  rewrite Heq4, bind_ok. cbv beta iota.
  eexists. split; [reflexivity|].
  destruct (Z.gtb_spec n4 1) as [Hbig|Hsmall].
  - split_and!; [|lia|].
    + apply Forall_app. split; [exact Hge4|]. apply Forall_singleton. lia.
    + intros _. rewrite product_snoc. lia.
  - split_and!; [exact Hge4|lia|]. intros _. nia.
Qed.

(** X11 at 169, returned as [169]. *)
Lemma wheel_factorize_product_witness :
  is_u32 169
  /\ exists fs : list Z,
       wheel_factorize 169 = Ok fs
       /\ Forall (fun f => 2 <= f) fs
       /\ (169 <= 1 -> fs = [])
       /\ (1 < 169 -> product fs = 169).
Proof.
  assert (Hu : is_u32 169) by (unfold is_u32, U32_MOD; lia).
  split; [exact Hu|]. exact (wheel_factorize_product 169 Hu).
Defined.

(** ** The cache and the results *)

(** X12. The cache never changes a result: in every reachable state and for
    every 32-bit [n], the factorizer returns, and returns the sequence it
    returns for [n] on the empty cache. *)
Theorem factorize_cache_transparent (st : state) (n : Z) :
  reachable st ->
  is_u32 n ->
  exists fs : list Z,
    returned (prime_factorize_optimized n st) = Ok fs
    /\ returned (prime_factorize_optimized n init_state) = Ok fs.
Proof.
  intros Hst Hn.
  destruct (prime_factorize_optimized_spec n st (reachable_cache_inv st Hst) Hn)
    as (fs & st' & Heq & _ & Hfresh & _).
  exists fs. split; [|exact Hfresh]. now rewrite Heq.
Qed.

(** X12 at the cache filled to capacity and 1000003, which it does not hold. *)
Lemma factorize_cache_transparent_witness :
  reachable full_state
  /\ is_u32 1000003
  /\ exists fs : list Z,
       returned (prime_factorize_optimized 1000003 full_state) = Ok fs
       /\ returned (prime_factorize_optimized 1000003 init_state) = Ok fs.
Proof.
  assert (Hu : is_u32 1000003) by (unfold is_u32, U32_MOD; lia).
  split_and!; [exact reachable_full|exact Hu|].
  exact (factorize_cache_transparent full_state 1000003 reachable_full Hu).
Defined.

Lemma prime_factorize_optimized_grows (n : Z) (st st' : state) (fs : list Z) :
  prime_factorize_optimized n st = Ok (fs, st') ->
  cache_size st <= cache_size st' <= cache_size st + 1.
Proof.
  intros Heq.
  destruct (prime_factorize_optimized_state n st st' fs Heq) as [->| ->]; [lia|].
  unfold add_to_cache.
  destruct ((cache_size st >=? MAX_CACHE_SIZE)
            || (Z.of_nat (length fs) >=? MAX_FACTORS)); cbn [cache_size]; lia.
Qed.

Lemma lua_batch_loop_grows (xs : list Z) :
  forall (out outs : list (list Z)) (st st' : state),
    lua_batch_loop xs out st = Ok (outs, st') ->
    length outs = (length out + length xs)%nat
    /\ cache_size st <= cache_size st' <= cache_size st + Z.of_nat (length xs).
Proof.
  induction xs as [|x xs IH]; intros out outs st st'; cbn [lua_batch_loop].
  - intros [= <- <-]. cbn [length]. lia.
  - destruct (prime_factorize_optimized x st) as [[fs st1]| |] eqn:Heq;
      cbn; [|discriminate..].
    intros Hrest. destruct (IH _ _ _ _ Hrest) as [Hlen Hsz].
    pose proof (prime_factorize_optimized_grows x st st1 fs Heq).
    rewrite length_app in Hlen. cbn [length] in *. lia.
Qed.

(** X13. A batch that returns gives one output per input and adds at most
    one entry per input to the cache, in any cache state and for any
    inputs. *)
Theorem batch_factorize_growth (xs : list Z) (st st' : state) (outs : list (list Z)) :
  lua_batch_prime_factorize xs st = Ok (outs, st') ->
  length outs = length xs
  /\ cache_size st <= cache_size st' <= cache_size st + Z.of_nat (length xs).
Proof.
  intros Heq. exact (lua_batch_loop_grows xs [] outs st st' Heq).
Qed.

(** X13 at the cache left by [factorize(12)] and the batch 12, 60: two
    outputs, one entry added. *)
Lemma batch_factorize_growth_witness :
  lua_batch_prime_factorize [12; 60] state_after_12
  = Ok ([[2; 2; 3; 3]; [2; 2; 3; 5; 5]],
        add_to_cache 60 [2; 2; 3; 5; 5] state_after_12)
  /\ length [[2; 2; 3; 3]; [2; 2; 3; 5; 5]] = length [12; 60]
  /\ cache_size state_after_12
     <= cache_size (add_to_cache 60 [2; 2; 3; 5; 5] state_after_12)
     <= cache_size state_after_12 + Z.of_nat (length [12; 60]).
Proof.
  assert (H : lua_batch_prime_factorize [12; 60] state_after_12
              = Ok ([[2; 2; 3; 3]; [2; 2; 3; 5; 5]],
                    add_to_cache 60 [2; 2; 3; 5; 5] state_after_12))
    by (vm_compute; reflexivity).
  split; [exact H|].
  exact (batch_factorize_growth [12; 60] state_after_12 _ _ H).
Defined.
